(** * arg-processor.js: the declaration grammar and the argument scanner

    A shallow embedding of [ArgOpt] and [ArgProcessor] (arg-processor.mts)
    and the properties of their specification.

    Conventions of the embedding.
    - A JavaScript string is a [string]: a sequence of 8-bit characters.
      The grammar only accepts the ASCII word characters; every other
      character takes the same, failing, branch.
    - [String.prototype.search] and [substring] keep their integer
      interface: [-1] for "not found", arguments clamped to the string.
    - A [throw] is a [Throw] completion carrying the error kind and its
      message; anything else is a [Return].  A method that writes to the
      processor before it throws returns the processor it leaves.
    - [this.opts] is a plain object used as a map.  Its own properties are
      an association list in the order [Object.entries] enumerates them;
      its prototype is recorded because [proced] and [value] read
      [this.opts[long]] through the prototype chain.
    - A descriptor is a record held by value.  The registry never files
      one object under two keys, and the fields [short], [long] and
      [capture] are written by the [ArgOpt] constructor only. *)

From stdpp Require Import base list strings.
From Stdlib Require Import Ascii String ZArith NArith Lia DecimalString.

Local Open Scope Z_scope.

(** ** Completions *)

Inductive Exn : Type :=
| SyntaxError (msg : string)
| ReferenceError (msg : string)
| TypeError.

Inductive Completion (A : Type) : Type :=
| Return (a : A)
| Throw (e : Exn).
Arguments Return {A} a.
Arguments Throw {A} e.

Definition bind {A B} (c : Completion A) (k : A -> Completion B) : Completion B :=
  match c with
  | Return a => k a
  | Throw e => Throw e
  end.

Notation "x <- c ;; k" := (bind c (fun x => k))
  (at level 100, c at next level, right associativity).

Definition isSyntaxError (e : Exn) : bool :=
  match e with SyntaxError _ => true | _ => false end.

Definition isReferenceError (e : Exn) : bool :=
  match e with ReferenceError _ => true | _ => false end.

Definition throwsSyntaxError {A} (c : Completion A) : Prop :=
  exists msg, c = Throw (SyntaxError msg).
Definition throwsReferenceError {A} (c : Completion A) : Prop :=
  exists msg, c = Throw (ReferenceError msg).

(** ** The string primitives the source calls *)

Module JS.

(** The double quote, for the messages. *)
Definition dquote : string := String (ascii_of_nat 34) EmptyString.

Definition quoted (s : string) : string := dquote +:+ s +:+ dquote.

Definition strlen (s : string) : Z := Z.of_nat (String.length s).

(** [s.search(c)] for a one-character pattern without special meaning:
    the index of the first occurrence, or [-1]. *)
Fixpoint search (c : ascii) (s : string) : Z :=
  match s with
  | EmptyString => -1
  | String a rest =>
      if Ascii.eqb a c then 0
      else let i := search c rest in if i =? -1 then -1 else i + 1
  end.

Fixpoint take (n : nat) (s : string) : string :=
  match n, s with
  | S n', String a rest => String a (take n' rest)
  | _, _ => EmptyString
  end.

Fixpoint drop (n : nat) (s : string) : string :=
  match n, s with
  | S n', String _ rest => drop n' rest
  | _, _ => s
  end.

Definition clamp (s : string) (i : Z) : Z := Z.max 0 (Z.min i (strlen s)).

(** [s.substring(a, b)]: both ends clamped to [0, length], swapped when
    out of order. *)
Definition substring (s : string) (a b : Z) : string :=
  let a' := clamp s a in
  let b' := clamp s b in
  let lo := Z.min a' b' in
  let hi := Z.max a' b' in
  take (Z.to_nat (hi - lo)) (drop (Z.to_nat lo) s).

(** [s.substring(a)] *)
Definition substringFrom (s : string) (a : Z) : string :=
  substring s a (strlen s).

Fixpoint startsWith (p s : string) : bool :=
  match p, s with
  | EmptyString, _ => true
  | String a p', String b s' => Ascii.eqb a b && startsWith p' s'
  | String _ _, EmptyString => false
  end.

(** [s.split(c)] for a one-character separator. *)
Fixpoint split (c : ascii) (s : string) : list string :=
  match s with
  | EmptyString => [EmptyString]
  | String a rest =>
      if Ascii.eqb a c then EmptyString :: split c rest
      else match split c rest with
           | piece :: pieces => String a piece :: pieces
           | [] => [String a EmptyString]
           end
  end.

(** A string is truthy when it is not empty. *)
Definition truthy (s : string) : bool :=
  match s with EmptyString => false | _ => true end.

(** [a || b] on strings. *)
Definition or (a b : string) : string := if truthy a then a else b.

(** The character class [[\w\d]]: letters, digits and the underscore. *)
Definition isWord (c : ascii) : bool :=
  let n := nat_of_ascii c in
  ((48 <=? n) && (n <=? 57) || (65 <=? n) && (n <=? 90)
   || (97 <=? n) && (n <=? 122) || (n =? 95))%nat.

(** The template literal [${n}] of a non-negative integer. *)
Definition ofNat (n : nat) : string := NilZero.string_of_uint (Nat.to_uint n).

(** The control characters of the help text: [\x1b], [\r], [\n], [\t]. *)
Definition esc : string := String (ascii_of_nat 27) EmptyString.
Definition cr : string := String (ascii_of_nat 13) EmptyString.
Definition lf : string := String (ascii_of_nat 10) EmptyString.
Definition tab : string := String (ascii_of_nat 9) EmptyString.

End JS.

(** ** ArgOpt *)

Module ArgOpt.

Record t : Type := mk {
  short : string;
  long : string;
  placeholder : string;
  description : string;
  capture : bool;
  captured : string;
  proc : bool
}.

(** The object [parse] returns. *)
Record parsed : Type := mkParsed {
  p_short : string;
  p_long : string;
  p_capture : bool;
  p_placeholder : string
}.

(** The [for (const char of str)] loop of [parse], with its three
    variables [short], [long] and [split]. *)
Fixpoint parseLoop (argOptStr str short long : string) (split : bool)
  : Completion (string * string * bool) :=
  match str with
  | EmptyString => Return (short, long, split)
  | String char rest =>
      if Ascii.eqb char "/" then parseLoop argOptStr rest short long true
      else if negb (JS.isWord char) then
        Throw (SyntaxError (JS.quoted (String char EmptyString) +:+ " in "
                            +:+ JS.quoted argOptStr +:+ " is not right."))
      else if negb split then
        parseLoop argOptStr rest (short +:+ String char EmptyString) long split
      else
        parseLoop argOptStr rest short (long +:+ String char EmptyString) split
  end.

Definition parse (argOptStr : string) : Completion parsed :=
  let '(capture, placeholder, str) :=
    if negb (JS.search "=" argOptStr =? -1) then
      (true,
       JS.substringFrom argOptStr (JS.search "=" argOptStr + 1),
       JS.substring argOptStr 0 (JS.search "=" argOptStr))
    else (false, EmptyString, argOptStr) in
  r <- parseLoop argOptStr str EmptyString EmptyString false ;;
  let '(short, long, split) := r in
  if negb split then
    Throw (SyntaxError (JS.quoted argOptStr +:+ " did not have separator ("
                        +:+ JS.quoted "/" +:+ ")."))
  else if JS.strlen long =? 0 then
    Throw (SyntaxError (JS.quoted argOptStr +:+ " cannot have empty long."))
  else
    Return {| p_short := short; p_long := long;
              p_capture := capture; p_placeholder := placeholder |}.

(** [new ArgOpt(argOptStr, description)] *)
Definition constructor (argOptStr description : string) : Completion t :=
  p <- parse argOptStr ;;
  Return {| short := p_short p; long := p_long p;
            capture := p_capture p; placeholder := p_placeholder p;
            description := description;
            captured := EmptyString; proc := false |}.

Definition toString (this : t) : string :=
  let cap := if capture this then "=" else EmptyString in
  short this +:+ "/" +:+ long this +:+ cap +:+ placeholder this.

Definition valueOf (this : t) : string := toString this.

(** [helpString()], with its template literals written out. *)
Definition helpString (this : t) : string :=
  let usageStr := EmptyString in
  let usageStr :=
    if JS.truthy (short this) then
      usageStr +:+ JS.esc +:+ "[34;1m-" +:+ short this +:+ JS.esc +:+ "[0m"
    else usageStr in
  let usageStr :=
    if JS.truthy (long this) then
      let usageStr :=
        if JS.truthy usageStr then
          usageStr +:+ JS.esc +:+ "[90;1m | " +:+ JS.esc +:+ "[0m"
        else usageStr in
      usageStr +:+ JS.esc +:+ "[34;1m--" +:+ long this +:+ JS.esc +:+ "[0m"
    else usageStr in
  let usageStr :=
    if capture this then
      let placeholder := JS.or (placeholder this) (long this) in
      usageStr +:+ JS.esc +:+ "[32;1m <" +:+ placeholder +:+ ">"
      +:+ JS.esc +:+ "[0m"
    else usageStr in
  let desc :=
    if JS.truthy (description this) then
      JS.cr +:+ JS.lf +:+ JS.tab +:+ JS.esc +:+ "[35;1m" +:+ description this
      +:+ JS.esc +:+ "[0m"
    else EmptyString in
  JS.lf +:+ "            " +:+ JS.cr +:+ usageStr +:+ desc
  +:+ JS.lf +:+ "        ".

End ArgOpt.

(** ** The object behind [this.opts] *)

Module Obj.

(** Own enumerable properties, in the order [Object.keys], [Object.values]
    and [Object.entries] list them: array-index keys in ascending numeric
    order first, then the other keys in the order they were created. *)
Abbreviation props := (list (string * ArgOpt.t)).

Fixpoint getOwn (k : string) (o : props) : option ArgOpt.t :=
  match o with
  | [] => None
  | (k', v) :: rest => if String.eqb k' k then Some v else getOwn k rest
  end.

(** [o[k].field = ...] on an own property: the value under [k] changes,
    the key keeps its place. *)
Fixpoint alterOwn (f : ArgOpt.t -> ArgOpt.t) (k : string) (o : props) : props :=
  match o with
  | [] => []
  | (k', v) :: rest =>
      if String.eqb k' k then (k', f v) :: rest
      else (k', v) :: alterOwn f k rest
  end.

(** [delete o[k]] *)
Fixpoint deleteOwn (k : string) (o : props) : props :=
  match o with
  | [] => []
  | (k', v) :: rest =>
      if String.eqb k' k then rest else (k', v) :: deleteOwn k rest
  end.

Definition digit (c : ascii) : option N :=
  let n := N_of_ascii c in
  if ((48 <=? n) && (n <=? 57))%N then Some (n - 48)%N else None.

Fixpoint digitsValue (s : string) (acc : N) : option N :=
  match s with
  | EmptyString => Some acc
  | String c rest =>
      match digit c with
      | Some d => digitsValue rest (acc * 10 + d)%N
      | None => None
      end
  end.

(** A key is an array index when it is the canonical decimal form of an
    integer below [2^32 - 1]. *)
Definition arrayIndex (k : string) : option N :=
  match k with
  | EmptyString => None
  | String c rest =>
      if Ascii.eqb c "0" && JS.truthy rest then None
      else match digitsValue k 0 with
           | Some n => if (n <=? 4294967294)%N then Some n else None
           | None => None
           end
  end.

(** Where a new array-index key goes among the own properties. *)
Fixpoint insertIndex (n : N) (k : string) (v : ArgOpt.t) (o : props) : props :=
  match o with
  | [] => [(k, v)]
  | (k', v') :: rest =>
      match arrayIndex k' with
      | Some n' =>
          if (n' <? n)%N then (k', v') :: insertIndex n k v rest
          else (k, v) :: o
      | None => (k, v) :: o
      end
  end.

(** Create the own property [k]. *)
Definition defineOwn (k : string) (v : ArgOpt.t) (o : props) : props :=
  match arrayIndex k with
  | Some n => insertIndex n k v o
  | None => o ++ [(k, v)]
  end.

(** What a property read can yield here. [VObject] stands for a function
    or for [Object.prototype]: an object with none of the fields of an
    [ArgOpt]. *)
Inductive Value : Type :=
| VUndefined
| VBoolean (b : bool)
| VString (s : string)
| VArgOpt (o : ArgOpt.t)
| VObject.

(** The own properties of [Object.prototype], its [__proto__] accessor
    apart. *)
Definition objectPrototypeKeys : list string :=
  ["constructor"; "__defineGetter__"; "__defineSetter__"; "hasOwnProperty";
   "__lookupGetter__"; "__lookupSetter__"; "isPrototypeOf";
   "propertyIsEnumerable"; "toString"; "valueOf"; "toLocaleString"]%string.

(** The methods of [ArgOpt.prototype]. *)
Definition argOptPrototypeKeys : list string :=
  ["constructor"; "toString"; "helpString"; "valueOf"]%string.

Definition mem (k : string) (l : list string) : bool := existsb (String.eqb k) l.

(** The fields of an [ArgOpt] instance. *)
Definition getField (p : ArgOpt.t) (k : string) : option Value :=
  if String.eqb k "short" then Some (VString (ArgOpt.short p))
  else if String.eqb k "long" then Some (VString (ArgOpt.long p))
  else if String.eqb k "placeholder" then Some (VString (ArgOpt.placeholder p))
  else if String.eqb k "description" then Some (VString (ArgOpt.description p))
  else if String.eqb k "capture" then Some (VBoolean (ArgOpt.capture p))
  else if String.eqb k "captured" then Some (VString (ArgOpt.captured p))
  else if String.eqb k "proc" then Some (VBoolean (ArgOpt.proc p))
  else None.

(** A read of [k] that found no own property and goes up the prototype
    chain. [proto] is [None] for the initial prototype, [Object.prototype],
    and [Some p] once an assignment to [__proto__] made the descriptor [p]
    the prototype. *)
Definition getInherited (proto : option ArgOpt.t) (k : string) : Value :=
  match proto with
  | Some p =>
      match getField p k with
      | Some v => v
      | None =>
          if mem k argOptPrototypeKeys then VObject
          else if String.eqb k "__proto__" then VArgOpt p
          else if mem k objectPrototypeKeys then VObject
          else VUndefined
      end
  | None =>
      if String.eqb k "__proto__" then VObject
      else if mem k objectPrototypeKeys then VObject
      else VUndefined
  end.

End Obj.

(** ** ArgProcessor *)

Module ArgProcessor.

Import Obj.

Record t : Type := mk {
  strict : bool;
  opts : props;
  (** the prototype of [opts], see [Obj.getInherited] *)
  optsProto : option ArgOpt.t
}.

Definition withOpts (this : t) (o : props) : t :=
  {| strict := strict this; opts := o; optsProto := optsProto this |}.

(** [this.opts[k]] *)
Definition getOpts (this : t) (k : string) : Value :=
  match getOwn k (opts this) with
  | Some o => VArgOpt o
  | None => getInherited (optsProto this) k
  end.

(** [this.opts[k] = v]: an own property is overwritten; otherwise the
    [__proto__] setter inherited from [Object.prototype] replaces the
    prototype, and any other key becomes a new own property. *)
Definition setOpts (this : t) (k : string) (v : ArgOpt.t) : t :=
  match getOwn k (opts this) with
  | Some _ => withOpts this (alterOwn (fun _ => v) k (opts this))
  | None =>
      if String.eqb k "__proto__" then
        {| strict := strict this; opts := opts this; optsProto := Some v |}
      else withOpts this (defineOwn k v (opts this))
  end.

(** The inner loop of the constructor: [opt], at position [iter], against
    every [mopt], at position [miter]. *)
Fixpoint matching (iter : nat) (opt : ArgOpt.t) (miter : nat)
    (mopts : list ArgOpt.t) : Completion unit :=
  match mopts with
  | [] => Return tt
  | mopt :: rest =>
      if (iter =? miter)%nat then matching iter opt (S miter) rest
      else if String.eqb (ArgOpt.short opt) (ArgOpt.short mopt) then
        Throw (ReferenceError
          (JS.quoted (ArgOpt.toString opt) +:+ " in "
           +:+ JS.quoted ("opts[" +:+ JS.ofNat iter +:+ "]") +:+ " and "
           +:+ JS.quoted (ArgOpt.toString mopt) +:+ " in "
           +:+ JS.quoted ("opts[" +:+ JS.ofNat miter +:+ "]")
           +:+ " have an identical short."))
      else if String.eqb (ArgOpt.long opt) (ArgOpt.long mopt) then
        Throw (ReferenceError
          (JS.quoted (ArgOpt.toString opt) +:+ " in "
           +:+ JS.quoted ("opts[" +:+ JS.ofNat iter +:+ "]") +:+ " and "
           +:+ JS.quoted (ArgOpt.toString mopt) +:+ " in "
           +:+ JS.quoted ("opts[" +:+ JS.ofNat miter +:+ "]")
           +:+ " have an identical long."))
      else matching iter opt (S miter) rest
  end.

(** The outer loop of the constructor over [all], at position [iter] with
    [rest] still to visit. *)
Fixpoint constructorLoop (all : list ArgOpt.t) (iter : nat)
    (rest : list ArgOpt.t) (this : t) : Completion t :=
  match rest with
  | [] => Return this
  | opt :: rest' =>
      _ <- matching iter opt 0 all ;;
      constructorLoop all (S iter) rest' (setOpts this (ArgOpt.long opt) opt)
  end.

(** [new ArgProcessor(opts)] *)
Definition constructor (opts : list ArgOpt.t) : Completion t :=
  constructorLoop opts 0 opts {| strict := true; opts := []; optsProto := None |}.

(** [dropOpt(opt)] *)
Definition dropOpt (this : t) (opt : string) : t :=
  if String.eqb opt "*" then withOpts this []
  else withOpts this (deleteOwn opt (opts this)).

(** The loop of [pushOpt] over [Object.values(this.opts)]. *)
Fixpoint pushCheck (opt : ArgOpt.t) (values : list ArgOpt.t) : Completion unit :=
  match values with
  | [] => Return tt
  | mopt :: rest =>
      if String.eqb (ArgOpt.short opt) (ArgOpt.short mopt)
         && negb (String.eqb (ArgOpt.long opt) (ArgOpt.long mopt)) then
        Throw (ReferenceError
          (ArgOpt.toString opt +:+ " and " +:+ ArgOpt.toString mopt
           +:+ " have the same short."))
      else pushCheck opt rest
  end.

(** [pushOpt(opt)]: the registry after the call, or the failure, which
    leaves the registry as it was. *)
Definition pushOpt (this : t) (opt : ArgOpt.t) : Completion t :=
  _ <- pushCheck opt (map snd (opts this)) ;;
  Return (setOpts (dropOpt this (ArgOpt.long opt)) (ArgOpt.long opt) opt).

(** [pushOptStr(optStr, desc)] *)
Definition pushOptStr (this : t) (optStr desc : string) : Completion t :=
  o <- ArgOpt.constructor optStr desc ;;
  pushOpt this o.

Definition setCaptured (v : string) (o : ArgOpt.t) : ArgOpt.t :=
  {| ArgOpt.short := ArgOpt.short o; ArgOpt.long := ArgOpt.long o;
     ArgOpt.placeholder := ArgOpt.placeholder o;
     ArgOpt.description := ArgOpt.description o;
     ArgOpt.capture := ArgOpt.capture o;
     ArgOpt.captured := v; ArgOpt.proc := ArgOpt.proc o |}.

Definition setProc (b : bool) (o : ArgOpt.t) : ArgOpt.t :=
  {| ArgOpt.short := ArgOpt.short o; ArgOpt.long := ArgOpt.long o;
     ArgOpt.placeholder := ArgOpt.placeholder o;
     ArgOpt.description := ArgOpt.description o;
     ArgOpt.capture := ArgOpt.capture o;
     ArgOpt.captured := ArgOpt.captured o; ArgOpt.proc := b |}.

(** [resetOpt()] on the own properties. *)
Definition resetProps (o : props) : props :=
  map (fun kv => (fst kv, setProc false (setCaptured EmptyString (snd kv)))) o.

Definition resetOpt (this : t) : t := withOpts this (resetProps (opts this)).

(** The local variables of [process]. *)
Record locals : Type := mkLocals {
  filtered : list string;
  captureNext : bool;
  lastCapKey : string
}.

Definition push (arg : string) (l : locals) : locals :=
  {| filtered := filtered l ++ [arg];
     captureNext := captureNext l; lastCapKey := lastCapKey l |}.

(** The test of the loop over [Object.entries(this.opts)]. *)
Definition hits (long : bool) (key : string) (kv : string * ArgOpt.t) : bool :=
  (long && String.eqb key (ArgOpt.long (snd kv)))
  || (negb long && String.eqb key (ArgOpt.short (snd kv))).

Definition mustSupply (arg : string) : Exn :=
  ReferenceError ("must supply value for " +:+ JS.quoted arg +:+ ".").

Definition unrecognized (arg : string) : Exn :=
  ReferenceError ("Unrecognized option: " +:+ JS.quoted arg).

(** [optKey] and [long] for a token. *)
Definition classify (arg : string) : string * bool :=
  if JS.startsWith "--" arg then (JS.substringFrom arg 2, true)
  else if JS.startsWith "-" arg then (JS.substringFrom arg 1, false)
  else (EmptyString, false).

(** The lookup key of an option token. *)
Definition lookupKey (optKey : string) : string :=
  JS.or (JS.substring optKey 0 (JS.search "=" optKey)) optKey.

(** The loop over the entries, which stops at the first descriptor that
    [hits]: the own properties and locals after it, [recog], and the
    failure raised inside it if any. *)
Definition lookup (args : list string) (iter : nat) (arg optKey : string)
    (long : bool) (o : props) (l : locals) : props * locals * bool * option Exn :=
  let key := lookupKey optKey in
  match find (hits long key) o with
  | None => (o, l, false, None)
  | Some (keyOpt, argOpt) =>
      let o1 := alterOwn (setProc true) keyOpt o in
      if ArgOpt.capture argOpt then
        let valIdx := JS.search "=" optKey in
        if negb (valIdx =? -1) then
          let val := JS.substringFrom optKey (valIdx + 1) in
          if negb (JS.truthy val) then (o1, l, true, Some (mustSupply arg))
          else (alterOwn (setCaptured val) keyOpt o1, l, true, None)
        else
          match nth_error args (S iter) with
          | None => (o1, l, true, Some (mustSupply arg))
          | Some _ =>
              (o1, {| filtered := filtered l; captureNext := true;
                      lastCapKey := keyOpt |}, true, None)
          end
      else (o1, l, true, None)
  end.

(** One iteration of the loop of [process] over [args.entries()]. When
    [captureNext] is set, [lastCapKey] is a key the loop over the entries
    has just seen, so [this.opts[lastCapKey]] is a descriptor; writing to
    the field of a missing one would be a [TypeError]. *)
Definition processArg (strict : bool) (args : list string) (iter : nat)
    (arg : string) (o : props) (l : locals) : props * locals * option Exn :=
  if captureNext l then
    match getOwn (lastCapKey l) o with
    | Some _ =>
        (alterOwn (setCaptured arg) (lastCapKey l) o,
         {| filtered := filtered l; captureNext := false;
            lastCapKey := EmptyString |}, None)
    | None => (o, l, Some TypeError)
    end
  else
    let '(optKey, long) := classify arg in
    let '(o1, l1, recog, e) :=
      if JS.truthy optKey then lookup args iter arg optKey long o l
      else (o, push arg l, false, None) in
    match e with
    | Some e => (o1, l1, Some e)
    | None =>
        if strict && JS.truthy optKey && negb recog then
          (o1, l1, Some (unrecognized arg))
        else if negb strict && JS.truthy optKey && negb recog then
          (o1, push arg l1, None)
        else (o1, l1, None)
    end.

(** The loop of [process]: [rest] are the tokens from position [iter] on.
    It stops at the first failure. *)
Fixpoint scan (strict : bool) (args : list string) (iter : nat)
    (rest : list string) (o : props) (l : locals)
    : props * locals * option Exn :=
  match rest with
  | [] => (o, l, None)
  | arg :: rest' =>
      match processArg strict args iter arg o l with
      | (o', l', Some e) => (o', l', Some e)
      | (o', l', None) => scan strict args (S iter) rest' o' l'
      end
  end.

Definition initial : locals :=
  {| filtered := []; captureNext := false; lastCapKey := EmptyString |}.

(** The rest of a call of [process], from position [iter] on: the
    processor after the call, and what the call returned or threw. *)
Definition processFrom (this : t) (args : list string) (iter : nat)
    (rest : list string) (o : props) (l : locals)
    : t * Completion (list string) :=
  let '(o', l', e) := scan (strict this) args iter rest o l in
  (withOpts this o',
   match e with
   | Some e => Throw e
   | None => Return (filtered l')
   end).

(** [process(args)] *)
Definition process (this : t) (args : list string) : t * Completion (list string) :=
  let this1 := resetOpt this in
  processFrom this1 args 0 args (opts this1) initial.

(** Reading [.proc] or [.captured] off what [this.opts[long]] gave. *)
Definition member (v : Value) (field : ArgOpt.t -> Value) : Completion Value :=
  match v with
  | VUndefined => Throw TypeError
  | VArgOpt o => Return (field o)
  | VBoolean _ | VString _ | VObject => Return VUndefined
  end.

(** [proced(long)] *)
Definition proced (this : t) (long : string) : Completion Value :=
  member (getOpts this long) (fun o => VBoolean (ArgOpt.proc o)).

(** [value(long)] *)
Definition value (this : t) (long : string) : Completion Value :=
  member (getOpts this long) (fun o => VString (ArgOpt.captured o)).

(** The loop of the static [new] over the entries of its argument, which
    maps declarations to descriptions. *)
Fixpoint newStack (entries : list (string * string)) : Completion (list ArgOpt.t) :=
  match entries with
  | [] => Return []
  | (synstr, desc) :: rest =>
      o <- ArgOpt.constructor synstr desc ;;
      stack <- newStack rest ;;
      Return (o :: stack)
  end.

(** [ArgProcessor.new(opts)] *)
Definition new (entries : list (string * string)) : Completion t :=
  stack <- newStack entries ;;
  constructor stack.

(** [processStr(args)]: the non-empty pieces between the spaces. *)
Definition processStr (this : t) (args : string) : t * Completion (list string) :=
  process this (filter (fun arg => JS.truthy arg = true) (JS.split " " args)).

(** [helpString()]: the help of every descriptor, in the order of
    [Object.values(this.opts)]. *)
Definition helpString (this : t) : string :=
  fold_left (fun helpStr kv => helpStr +:+ ArgOpt.helpString (snd kv))
    (opts this) EmptyString.

End ArgProcessor.

(** ** Vocabulary of the specification *)

Module Spec.

Import Obj.

(** Does the character occur in the string? *)
Fixpoint occurs (c : ascii) (s : string) : bool :=
  match s with
  | EmptyString => false
  | String a rest => Ascii.eqb a c || occurs c rest
  end.

(** The text before the first [c] (all of it when there is none). *)
Fixpoint before (c : ascii) (s : string) : string :=
  match s with
  | EmptyString => EmptyString
  | String a rest => if Ascii.eqb a c then EmptyString else String a (before c rest)
  end.

(** The text after the first [c] (empty when there is none). *)
Fixpoint after (c : ascii) (s : string) : string :=
  match s with
  | EmptyString => EmptyString
  | String a rest => if Ascii.eqb a c then rest else after c rest
  end.

(** The string with every [c] removed. *)
Fixpoint without (c : ascii) (s : string) : string :=
  match s with
  | EmptyString => EmptyString
  | String a rest =>
      if Ascii.eqb a c then without c rest else String a (without c rest)
  end.

Fixpoint count (c : ascii) (s : string) : nat :=
  match s with
  | EmptyString => 0%nat
  | String a rest => ((if Ascii.eqb a c then 1 else 0) + count c rest)%nat
  end.

Fixpoint allb (P : ascii -> bool) (s : string) : bool :=
  match s with
  | EmptyString => true
  | String a rest => P a && allb P rest
  end.

(** The short/long portion of a declaration: the text before the first
    [=]. *)
Definition portion (decl : string) : string := before "=" decl.

Definition sepOrWord (c : ascii) : bool := Ascii.eqb c "/" || JS.isWord c.

(** The three checks of the grammar on a short/long portion: nothing but
    separators and word characters, a separator, a word character after
    the first separator. *)
Definition accepted (str : string) : bool :=
  allb sepOrWord str
  && occurs "/" str
  && JS.truthy (without "/" (after "/" str)).

(** The descriptor the grammar assigns to an accepted declaration. *)
Definition descriptor (decl : string) : ArgOpt.parsed :=
  {| ArgOpt.p_short := before "/" (portion decl);
     ArgOpt.p_long := without "/" (after "/" (portion decl));
     ArgOpt.p_capture := occurs "=" decl;
     ArgOpt.p_placeholder := after "=" decl |}.

(** The canonical declaration form of a descriptor. *)
Definition canonical (short long : string) (capture : bool) (placeholder : string)
    : string :=
  short +:+ "/" +:+ long +:+ (if capture then "=" +:+ placeholder else EmptyString).

(** The four fields [parse] computes, read off a descriptor. *)
Definition fields (o : ArgOpt.t) : ArgOpt.parsed :=
  {| ArgOpt.p_short := ArgOpt.short o; ArgOpt.p_long := ArgOpt.long o;
     ArgOpt.p_capture := ArgOpt.capture o;
     ArgOpt.p_placeholder := ArgOpt.placeholder o |}.

(** *** The registry *)

Definition keys (o : props) : list string := map fst o.

Definition shorts (o : props) : list string :=
  map (fun kv => ArgOpt.short (snd kv)) o.

(** The registry invariant: descriptors are filed under their [long], and
    no two of them share a key or a [short]. *)
Definition wellFormed (o : props) : Prop :=
  NoDup (keys o) /\ NoDup (shorts o)
  /\ Forall (fun kv => fst kv = ArgOpt.long (snd kv)) o.

(** *** The scan *)

Import ArgProcessor.

(** The token has a non-empty key behind its dash prefix. *)
Definition optionShaped (tok : string) : bool := JS.truthy (fst (classify tok)).

(** The descriptor an option token selects, if any. *)
Definition matchOf (o : props) (tok : string) : option (string * ArgOpt.t) :=
  let '(optKey, long) := classify tok in
  if JS.truthy optKey then find (hits long (lookupKey optKey)) o else None.

(** The inline value of an option token: the text after its first [=]. *)
Definition inlineValue (tok : string) : option string :=
  let optKey := fst (classify tok) in
  if occurs "=" optKey then Some (after "=" optKey) else None.

(** A call [process(args)] has gone through the tokens [pre] without a
    failure and stands there with the own properties [o] and locals [l]. *)
Definition scanned (this : t) (args pre : list string) (o : props) (l : locals)
    : Prop :=
  scan (strict this) args 0 pre (resetProps (opts this)) initial = (o, l, None).

(** The key a capturing option waits under is an own property. *)
Definition waitingOwn (o : props) (l : locals) : Prop :=
  captureNext l = true -> exists v, getOwn (lastCapKey l) o = Some v.

(** The positional tokens of a sequence, as the glossary has them: the
    tokens that select no descriptor and are not the value a capturing
    option was waiting for. [pending] says whether the previous token left
    such an option waiting. *)
Fixpoint positionals (o : props) (pending : bool) (tokens : list string)
    : list string :=
  match tokens with
  | [] => []
  | tok :: rest =>
      if pending then positionals o false rest
      else match matchOf o tok with
           | Some (_, argOpt) =>
               positionals o
                 (ArgOpt.capture argOpt
                  && match inlineValue tok with None => true | Some _ => false end)
                 rest
           | None => tok :: positionals o false rest
           end
  end.

(** *** Further vocabulary *)


(** The keys of the descriptors the tokens select, in the order of the
    tokens; a token that is the value a capturing option waited for
    selects nothing. *)
Fixpoint selected (o : props) (pending : bool) (tokens : list string)
    : list string :=
  match tokens with
  | [] => []
  | tok :: rest =>
      if pending then selected o false rest
      else match matchOf o tok with
           | Some (k, argOpt) =>
               k :: selected o
                      (ArgOpt.capture argOpt
                       && match inlineValue tok with
                          | None => true
                          | Some _ => false
                          end)
                      rest
           | None => selected o false rest
           end
  end.

(** The values the tokens supply, each with the key of the capturing
    descriptor it is for, in the order of the tokens: an inline value, or
    the token after an option without one. [pending] is the key of the
    option that waits for the next token, if any. *)
Fixpoint captures (o : props) (pending : option string) (tokens : list string)
    : list (string * string) :=
  match tokens with
  | [] => []
  | tok :: rest =>
      match pending with
      | Some k => (k, tok) :: captures o None rest
      | None =>
          match matchOf o tok with
          | Some (k, argOpt) =>
              if ArgOpt.capture argOpt then
                match inlineValue tok with
                | Some val => (k, val) :: captures o None rest
                | None => captures o (Some k) rest
                end
              else captures o None rest
          | None => captures o None rest
          end
      end
  end.

(** The value held for the key [k] once [kv] is supplied. *)
Definition supply (k : string) (acc : string) (kv : string * string) : string :=
  if String.eqb (fst kv) k then snd kv else acc.

(** The last value supplied for a key, the empty string when there is
    none. *)
Definition lastFor (k : string) (l : list (string * string)) : string :=
  fold_left (supply k) l EmptyString.

(** The option that waits for the next token, read off the locals. *)
Definition waiting (l : locals) : option string :=
  if captureNext l then Some (lastCapKey l) else None.

(** A call on a processor. *)
Inductive call : Type :=
| PushOpt (opt : ArgOpt.t)
| PushOptStr (optStr desc : string)
| DropOpt (opt : string)
| Process (args : list string)
| ProcessStr (args : string)
| ResetOpt.

(** The processor a call leaves; a [pushOpt] or [pushOptStr] that throws
    has not written to it. *)
Definition perform (this : t) (c : call) : t :=
  match c with
  | PushOpt opt =>
      match pushOpt this opt with Return this' => this' | Throw _ => this end
  | PushOptStr optStr desc =>
      match pushOptStr this optStr desc with
      | Return this' => this'
      | Throw _ => this
      end
  | DropOpt opt => dropOpt this opt
  | Process args => fst (process this args)
  | ProcessStr args => fst (processStr this args)
  | ResetOpt => resetOpt this
  end.

(** The declared part of a descriptor: all but [proc] and [captured]. *)
Definition declared (o : ArgOpt.t) : ArgOpt.t :=
  setProc false (setCaptured EmptyString o).

(** No space in the string. *)
Definition word (s : string) : bool := JS.truthy s && negb (occurs " " s).

End Spec.

(** ** The registry of the usage demo: [h/help] and [i/input=] *)

Module Demo.

Definition help : ArgOpt.t :=
  {| ArgOpt.short := "h"; ArgOpt.long := "help"; ArgOpt.placeholder := "";
     ArgOpt.description := ""; ArgOpt.capture := false;
     ArgOpt.captured := ""; ArgOpt.proc := false |}.

Definition input : ArgOpt.t :=
  {| ArgOpt.short := "i"; ArgOpt.long := "input"; ArgOpt.placeholder := "";
     ArgOpt.description := ""; ArgOpt.capture := true;
     ArgOpt.captured := ""; ArgOpt.proc := false |}.

Definition registry (strict : bool) : ArgProcessor.t :=
  {| ArgProcessor.strict := strict;
     ArgProcessor.opts := [("help", help); ("input", input)];
     ArgProcessor.optsProto := None |}.

(** [h/halt], which has the short of [help]. *)
Definition halt : ArgOpt.t :=
  {| ArgOpt.short := "h"; ArgOpt.long := "halt"; ArgOpt.placeholder := "";
     ArgOpt.description := ""; ArgOpt.capture := false;
     ArgOpt.captured := ""; ArgOpt.proc := false |}.

(** Two descriptors without a short form, [/foo] and [/bar]. *)
Definition foo : ArgOpt.t :=
  {| ArgOpt.short := ""; ArgOpt.long := "foo"; ArgOpt.placeholder := "";
     ArgOpt.description := ""; ArgOpt.capture := false;
     ArgOpt.captured := ""; ArgOpt.proc := false |}.

Definition bar : ArgOpt.t :=
  {| ArgOpt.short := ""; ArgOpt.long := "bar"; ArgOpt.placeholder := "";
     ArgOpt.description := ""; ArgOpt.capture := false;
     ArgOpt.captured := ""; ArgOpt.proc := false |}.

(** [new ArgOpt("2/2")]: its long is an array index. *)
Definition two : ArgOpt.t :=
  {| ArgOpt.short := "2"; ArgOpt.long := "2"; ArgOpt.placeholder := "";
     ArgOpt.description := ""; ArgOpt.capture := false;
     ArgOpt.captured := ""; ArgOpt.proc := false |}.

End Demo.

(** * Properties *)

Import Obj ArgProcessor Spec.

(** ** The demo values are what the interface builds *)

Example demo_registry_constructed :
  (a <- ArgOpt.constructor "h/help" "" ;;
   b <- ArgOpt.constructor "i/input=" "" ;;
   ArgProcessor.constructor [a; b])
  = Return (Demo.registry true).
Proof. reflexivity. Qed.

Example demo_registry_pushed :
  (this <- ArgProcessor.constructor [] ;;
   this <- pushOptStr this "h/help" "" ;;
   pushOptStr this "i/input=" "")
  = Return (Demo.registry true).
Proof. reflexivity. Qed.

Example demo_foo_bar_halt :
  ArgOpt.constructor "/foo" "" = Return Demo.foo
  /\ ArgOpt.constructor "/bar" "" = Return Demo.bar
  /\ ArgOpt.constructor "h/halt" "" = Return Demo.halt.
Proof. repeat split. Qed.

Example demo_registry_new :
  ArgProcessor.new [("h/help", ""); ("i/input=", "")] = Return (Demo.registry true).
Proof. reflexivity. Qed.

Example processStr_demo :
  snd (processStr (Demo.registry true) "app  -i img.png  rest")
  = Return ["app"; "rest"].
Proof. reflexivity. Qed.

Example parse_input :
  ArgOpt.parse "i/input=file_path"
  = Return (ArgOpt.mkParsed "i" "input" true "file_path").
Proof. reflexivity. Qed.

Example parse_rejects :
  throwsSyntaxError (ArgOpt.parse "1help")
  /\ throwsSyntaxError (ArgOpt.parse "h/")
  /\ throwsSyntaxError (ArgOpt.parse "h$/help").
Proof. repeat split; eexists; reflexivity. Qed.

Example pushOpt_replaces :
  (this <- pushOptStr (Demo.registry true) "h/help=X" "" ;;
   Return (getOwn "help" (opts this)))
  = Return (Some (setCaptured "" {| ArgOpt.short := "h"; ArgOpt.long := "help";
                     ArgOpt.placeholder := "X"; ArgOpt.description := "";
                     ArgOpt.capture := true; ArgOpt.captured := "";
                     ArgOpt.proc := false |})).
Proof. reflexivity. Qed.

Example array_index_keys_first :
  (a <- ArgOpt.constructor "x/x" "" ;; b <- ArgOpt.constructor "t/10" "" ;;
   c <- ArgOpt.constructor "n/9" "" ;; this <- ArgProcessor.constructor [a; b; c] ;;
   Return (keys (opts this)))
  = Return ["9"; "10"; "x"].
Proof. reflexivity. Qed.

(** ** Strings *)

Section Strings.

Lemma append_nil_l (s : string) : "" +:+ s = s.
Proof. reflexivity. Qed.

Lemma append_cons (a : ascii) (s t : string) : String a s +:+ t = String a (s +:+ t).
Proof. reflexivity. Qed.

Lemma append_nil_r (s : string) : s +:+ "" = s.
Proof.
  induction s as [|a s IH]; [reflexivity | now rewrite append_cons, IH].
Qed.

Lemma append_assoc (a b c : string) : (a +:+ b) +:+ c = a +:+ b +:+ c.
Proof.
  induction a as [|x a IH]; [reflexivity | now rewrite !append_cons, IH].
Qed.

Lemma strlen_nonneg (s : string) : 0 <= JS.strlen s.
Proof. unfold JS.strlen. lia. Qed.

Lemma strlen_String (a : ascii) (s : string) :
  JS.strlen (String a s) = JS.strlen s + 1.
Proof. unfold JS.strlen. simpl String.length. lia. Qed.

Lemma take_all (s : string) : JS.take (String.length s) s = s.
Proof. induction s as [|a s IH]; simpl; [reflexivity | now rewrite IH]. Qed.

Lemma search_occurs (c : ascii) (s : string) :
  JS.search c s = if occurs c s then JS.strlen (before c s) else -1.
Proof.
  induction s as [|a s IH]; simpl; [reflexivity|].
  destruct (Ascii.eqb a c); simpl; [reflexivity|].
  rewrite IH. destruct (occurs c s).
  - pose proof (strlen_nonneg (before c s)).
    destruct (JS.strlen (before c s) =? -1) eqn:E; [lia|].
    now rewrite strlen_String.
  - reflexivity.
Qed.

Lemma take_before (c : ascii) (s : string) :
  JS.take (String.length (before c s)) s = before c s.
Proof.
  induction s as [|a s IH]; simpl; [reflexivity|].
  destruct (Ascii.eqb a c); simpl; [reflexivity | now rewrite IH].
Qed.

Lemma drop_after (c : ascii) (s : string) :
  occurs c s = true -> JS.drop (S (String.length (before c s))) s = after c s.
Proof.
  induction s as [|a s IH]; simpl; [discriminate|].
  destruct (Ascii.eqb a c); simpl.
  - intros _. now destruct s.
  - exact IH.
Qed.

Lemma before_length (c : ascii) (s : string) :
  (String.length (before c s) <= String.length s)%nat.
Proof.
  induction s as [|a s IH]; simpl; [lia|].
  destruct (Ascii.eqb a c); simpl; lia.
Qed.

Lemma before_length_occurs (c : ascii) (s : string) :
  occurs c s = true -> (String.length (before c s) < String.length s)%nat.
Proof.
  induction s as [|a s IH]; simpl; [discriminate|].
  destruct (Ascii.eqb a c); simpl; [lia|]. intros H. apply IH in H. lia.
Qed.

Lemma after_length (c : ascii) (s : string) :
  occurs c s = true ->
  (String.length (after c s) + S (String.length (before c s)) = String.length s)%nat.
Proof.
  induction s as [|a s IH]; simpl; [discriminate|].
  destruct (Ascii.eqb a c); simpl; [lia|]. intros H. apply IH in H. lia.
Qed.

(** [str.substring(0, str.search(c))] is the text before the first [c]. *)
Lemma substring_search (c : ascii) (s : string) :
  occurs c s = true -> JS.substring s 0 (JS.search c s) = before c s.
Proof.
  intros H. rewrite search_occurs, H. unfold JS.substring, JS.clamp, JS.strlen.
  pose proof (before_length c s) as Hle.
  set (n := String.length (before c s)) in *.
  set (m := String.length s) in *.
  replace (Z.max 0 (Z.min 0 (Z.of_nat m))) with 0 by lia.
  replace (Z.max 0 (Z.min (Z.of_nat n) (Z.of_nat m))) with (Z.of_nat n) by lia.
  rewrite Z.min_l, Z.max_r by lia. rewrite Z.sub_0_r, Nat2Z.id. simpl.
  apply take_before.
Qed.

(** [str.substring(str.search(c) + 1)] is the text after the first [c]. *)
Lemma substringFrom_search (c : ascii) (s : string) :
  occurs c s = true -> JS.substringFrom s (JS.search c s + 1) = after c s.
Proof.
  intros H. rewrite search_occurs, H.
  unfold JS.substringFrom, JS.substring, JS.clamp, JS.strlen.
  pose proof (before_length_occurs c s H) as Hlt.
  pose proof (after_length c s H) as Hlen.
  rewrite <- (drop_after c s H).
  set (n := String.length (before c s)) in *.
  set (m := String.length s) in *.
  replace (Z.max 0 (Z.min (Z.of_nat m) (Z.of_nat m))) with (Z.of_nat m) by lia.
  replace (Z.max 0 (Z.min (Z.of_nat n + 1) (Z.of_nat m)))
    with (Z.of_nat n + 1) by lia.
  rewrite Z.min_l, Z.max_r by lia.
  replace (Z.to_nat (Z.of_nat n + 1)) with (S n) by lia.
  replace (Z.to_nat (Z.of_nat m - (Z.of_nat n + 1)))
    with (String.length (JS.drop (S n) s)).
  - apply take_all.
  - subst n m. rewrite (drop_after c s H). lia.
Qed.

(** Without a [c], [search] answers [-1] and [substring(0, -1)] is empty. *)
Lemma substring_search_none (c : ascii) (s : string) :
  occurs c s = false -> JS.substring s 0 (JS.search c s) = "".
Proof.
  intros H. rewrite search_occurs, H. unfold JS.substring, JS.clamp.
  pose proof (strlen_nonneg s) as Hn.
  set (m := JS.strlen s) in *.
  replace (Z.max 0 (Z.min 0 m)) with 0 by lia.
  replace (Z.max 0 (Z.min (-1) m)) with 0 by lia.
  reflexivity.
Qed.

Lemma before_none (c : ascii) (s : string) : occurs c s = false -> before c s = s.
Proof.
  induction s as [|a s IH]; simpl; [reflexivity|].
  destruct (Ascii.eqb a c); simpl; [discriminate|]. intros H. now rewrite IH.
Qed.

Lemma after_none (c : ascii) (s : string) : occurs c s = false -> after c s = "".
Proof.
  induction s as [|a s IH]; simpl; [reflexivity|].
  destruct (Ascii.eqb a c); simpl; [discriminate | exact IH].
Qed.

Lemma without_none (c : ascii) (s : string) : occurs c s = false -> without c s = s.
Proof.
  induction s as [|a s IH]; simpl; [reflexivity|].
  destruct (Ascii.eqb a c); simpl; [discriminate|]. intros H. now rewrite IH.
Qed.

Lemma occurs_app (c : ascii) (a b : string) :
  occurs c (a +:+ b) = occurs c a || occurs c b.
Proof.
  induction a as [|x a IH]; [reflexivity|].
  rewrite append_cons. simpl. rewrite IH. now rewrite orb_assoc.
Qed.

Lemma before_app (c : ascii) (a b : string) :
  occurs c a = false -> before c (a +:+ b) = a +:+ before c b.
Proof.
  induction a as [|x a IH]; [reflexivity|].
  rewrite !append_cons. simpl.
  destruct (Ascii.eqb x c); simpl; [discriminate|]. intros H.
  now rewrite IH.
Qed.

Lemma after_app (c : ascii) (a b : string) :
  occurs c a = false -> after c (a +:+ b) = after c b.
Proof.
  induction a as [|x a IH]; [reflexivity|].
  rewrite append_cons. simpl.
  destruct (Ascii.eqb x c); simpl; [discriminate | exact IH].
Qed.

Lemma allb_app (P : ascii -> bool) (a b : string) :
  allb P (a +:+ b) = allb P a && allb P b.
Proof.
  induction a as [|x a IH]; [reflexivity|].
  rewrite append_cons. simpl. rewrite IH. now rewrite andb_assoc.
Qed.

Lemma allb_impl (P Q : ascii -> bool) (s : string) :
  (forall c, P c = true -> Q c = true) -> allb P s = true -> allb Q s = true.
Proof.
  intros HPQ. induction s as [|a s IH]; simpl; [reflexivity|].
  intros [Ha Hs]%andb_prop. rewrite (HPQ a Ha). simpl. auto.
Qed.

(** A string of characters other than [c] does not contain [c]. *)
Lemma allb_occurs (P : ascii -> bool) (c : ascii) (s : string) :
  P c = false -> allb P s = true -> occurs c s = false.
Proof.
  intros Hc. induction s as [|a s IH]; simpl; [reflexivity|].
  intros [Ha Hs]%andb_prop. rewrite (IH Hs), orb_false_r.
  destruct (Ascii.eqb_spec a c); [congruence | reflexivity].
Qed.

End Strings.

(** ** The declaration grammar *)

Section Grammar.

Lemma isWord_not_sep (c : ascii) : JS.isWord c = true -> Ascii.eqb c "/" = false.
Proof.
  intros H. destruct (Ascii.eqb_spec c "/") as [->|]; [discriminate | reflexivity].
Qed.

Lemma isWord_not_eq (c : ascii) : JS.isWord c = true -> Ascii.eqb c "=" = false.
Proof.
  intros H. destruct (Ascii.eqb_spec c "=") as [->|]; [discriminate | reflexivity].
Qed.

Lemma sepOrWord_not_eq (c : ascii) : sepOrWord c = true -> Ascii.eqb c "=" = false.
Proof.
  intros H. destruct (Ascii.eqb_spec c "=") as [->|]; [discriminate | reflexivity].
Qed.

(** The loop on a portion of separators and word characters: the text
    before the first separator goes to [short], the word characters after
    it to [long]. *)
Lemma parseLoop_accepts (a str sh lg : string) (sp : bool) :
  allb sepOrWord str = true ->
  ArgOpt.parseLoop a str sh lg sp
  = Return (if sp then sh else sh +:+ before "/" str,
            lg +:+ without "/" (if sp then str else after "/" str),
            sp || occurs "/" str).
Proof.
  revert sh lg sp. induction str as [|c r IH]; intros sh lg sp.
  - intros _. destruct sp; simpl; now rewrite !append_nil_r.
  - simpl. intros [Hc Hr]%andb_prop. unfold sepOrWord in Hc.
    destruct (Ascii.eqb c "/") eqn:Esep.
    + rewrite (IH _ _ _ Hr). destruct sp; simpl; now rewrite ?Esep, ?append_nil_r.
    + simpl in Hc. rewrite Hc. simpl. destruct sp; simpl.
      * rewrite (IH _ _ _ Hr). simpl. now rewrite Esep, append_assoc.
      * rewrite (IH _ _ _ Hr). simpl. now rewrite append_assoc.
Qed.

(** Any other character stops the loop with a [SyntaxError]. *)
Lemma parseLoop_rejects (a str sh lg : string) (sp : bool) :
  allb sepOrWord str = false ->
  throwsSyntaxError (ArgOpt.parseLoop a str sh lg sp).
Proof.
  revert sh lg sp. induction str as [|c r IH]; intros sh lg sp; simpl.
  - discriminate.
  - unfold sepOrWord at 1. destruct (Ascii.eqb c "/") eqn:Esep; simpl.
    + apply IH.
    + destruct (JS.isWord c); simpl.
      * destruct sp; apply IH.
      * intros _. eexists. reflexivity.
Qed.

(** [parse] with its two [substring] calls resolved. *)
Lemma parse_unfold (s : string) :
  ArgOpt.parse s
  = (r <- ArgOpt.parseLoop s (portion s) "" "" false ;;
     let '(short, long, split) := r in
     if negb split then
       Throw (SyntaxError (JS.quoted s +:+ " did not have separator ("
                           +:+ JS.quoted "/" +:+ ")."))
     else if JS.strlen long =? 0 then
       Throw (SyntaxError (JS.quoted s +:+ " cannot have empty long."))
     else
       Return {| ArgOpt.p_short := short; ArgOpt.p_long := long;
                 ArgOpt.p_capture := occurs "=" s;
                 ArgOpt.p_placeholder := after "=" s |}).
Proof.
  unfold ArgOpt.parse, portion. destruct (occurs "=" s) eqn:E.
  - rewrite (substring_search _ _ E), (substringFrom_search _ _ E).
    rewrite search_occurs, E.
    pose proof (strlen_nonneg (before "=" s)) as Hn.
    destruct (JS.strlen (before "=" s) =? -1) eqn:E1; [lia|]. reflexivity.
  - rewrite search_occurs, E. simpl.
    now rewrite (before_none _ _ E), (after_none _ _ E).
Qed.

Lemma strlen_truthy (s : string) : (JS.strlen s =? 0) = negb (JS.truthy s).
Proof. now destruct s. Qed.

(** What [parse] does on every declaration. *)
Lemma parse_spec (s : string) :
  if accepted (portion s) then ArgOpt.parse s = Return (descriptor s)
  else throwsSyntaxError (ArgOpt.parse s).
Proof.
  rewrite parse_unfold. unfold accepted.
  destruct (allb sepOrWord (portion s)) eqn:Eall; simpl.
  - rewrite (parseLoop_accepts _ _ _ _ _ Eall). rewrite !append_nil_l. simpl.
    destruct (occurs "/" (portion s)); simpl.
    + rewrite strlen_truthy.
      destruct (JS.truthy (without "/" (after "/" (portion s)))); simpl.
      * reflexivity.
      * eexists. reflexivity.
    + eexists. reflexivity.
  - destruct (parseLoop_rejects s (portion s) "" "" false Eall) as [msg ->].
    eexists. reflexivity.
Qed.

(** [parse] fails with a [SyntaxError] or not at all. *)
Lemma parse_SyntaxError (s : string) (e : Exn) :
  ArgOpt.parse s = Throw e -> isSyntaxError e = true.
Proof.
  intros H. pose proof (parse_spec s) as Hs.
  destruct (accepted (portion s)); [congruence|].
  destruct Hs as [msg Hs]. rewrite Hs in H. now injection H as <-.
Qed.

Lemma parse_Return (s : string) (p : ArgOpt.parsed) :
  ArgOpt.parse s = Return p -> accepted (portion s) = true /\ p = descriptor s.
Proof.
  intros H. pose proof (parse_spec s) as Hs.
  destruct (accepted (portion s)).
  - split; [reflexivity | congruence].
  - destruct Hs as [msg Hs]. congruence.
Qed.

Lemma allb_before (P : ascii -> bool) (c : ascii) (s : string) :
  allb P s = true -> allb P (before c s) = true.
Proof.
  induction s as [|a s IH]; simpl; [reflexivity|].
  intros [Ha Hs]%andb_prop. destruct (Ascii.eqb a c); simpl; [reflexivity|].
  rewrite Ha. simpl. auto.
Qed.

Lemma allb_after (P : ascii -> bool) (c : ascii) (s : string) :
  allb P s = true -> allb P (after c s) = true.
Proof.
  induction s as [|a s IH]; simpl; [reflexivity|].
  intros [Ha Hs]%andb_prop. destruct (Ascii.eqb a c); auto.
Qed.

Lemma allb_sepOrWord_before (s : string) :
  allb sepOrWord s = true -> allb JS.isWord (before "/" s) = true.
Proof.
  induction s as [|a s IH]; simpl; [reflexivity|].
  intros [Ha Hs]%andb_prop. unfold sepOrWord in Ha.
  destruct (Ascii.eqb a "/"); simpl; [reflexivity|].
  simpl in Ha. rewrite Ha. simpl. auto.
Qed.

Lemma allb_sepOrWord_without (s : string) :
  allb sepOrWord s = true -> allb JS.isWord (without "/" s) = true.
Proof.
  induction s as [|a s IH]; simpl; [reflexivity|].
  intros [Ha Hs]%andb_prop. unfold sepOrWord in Ha.
  destruct (Ascii.eqb a "/"); simpl; [auto|].
  simpl in Ha. rewrite Ha. simpl. auto.
Qed.

(** The fields of a parsed descriptor: [short] and [long] are made of word
    characters, [long] is not empty, and only a capturing descriptor has a
    placeholder. *)
Lemma parse_fields (s : string) (p : ArgOpt.parsed) :
  ArgOpt.parse s = Return p ->
  allb JS.isWord (ArgOpt.p_short p) = true
  /\ allb JS.isWord (ArgOpt.p_long p) = true
  /\ JS.truthy (ArgOpt.p_long p) = true
  /\ (ArgOpt.p_capture p = false -> ArgOpt.p_placeholder p = "").
Proof.
  intros [Hacc ->]%parse_Return. unfold accepted in Hacc.
  apply andb_prop in Hacc as [[Hall Hsep]%andb_prop Hlong]. simpl.
  repeat split.
  - now apply allb_sepOrWord_before.
  - now apply allb_sepOrWord_without, allb_after.
  - exact Hlong.
  - apply after_none.
Qed.

(** The canonical form of such fields parses back to them. *)
Lemma parse_canonical (sh lg ph : string) (cap : bool) :
  allb JS.isWord sh = true -> allb JS.isWord lg = true -> JS.truthy lg = true ->
  (cap = false -> ph = "") ->
  ArgOpt.parse (canonical sh lg cap ph)
  = Return {| ArgOpt.p_short := sh; ArgOpt.p_long := lg;
              ArgOpt.p_capture := cap; ArgOpt.p_placeholder := ph |}.
Proof.
  intros Hsh Hlg Hne Hph.
  assert (Esh : occurs "=" sh = false)
    by (apply (allb_occurs JS.isWord); [reflexivity | assumption]).
  assert (Elg : occurs "=" lg = false)
    by (apply (allb_occurs JS.isWord); [reflexivity | assumption]).
  assert (Ssh : occurs "/" sh = false)
    by (apply (allb_occurs JS.isWord); [reflexivity | assumption]).
  assert (Slg : occurs "/" lg = false)
    by (apply (allb_occurs JS.isWord); [reflexivity | assumption]).
  assert (Hport : portion (canonical sh lg cap ph) = sh +:+ "/" +:+ lg).
  { unfold portion, canonical. rewrite (before_app _ _ _ Esh).
    rewrite !append_cons, !append_nil_l. simpl. rewrite (before_app _ _ _ Elg).
    destruct cap; rewrite ?append_cons; simpl; now rewrite append_nil_r. }
  assert (Hcap : occurs "=" (canonical sh lg cap ph) = cap).
  { unfold canonical. rewrite occurs_app, Esh.
    rewrite !append_cons, !append_nil_l. simpl. rewrite occurs_app, Elg.
    destruct cap; rewrite ?append_cons; reflexivity. }
  assert (Hafter : after "=" (canonical sh lg cap ph) = ph).
  { unfold canonical. rewrite (after_app _ _ _ Esh).
    rewrite !append_cons, !append_nil_l. simpl. rewrite (after_app _ _ _ Elg).
    destruct cap; rewrite ?append_cons; simpl; [reflexivity | now rewrite Hph]. }
  assert (Hbefore : before "/" (sh +:+ "/" +:+ lg) = sh).
  { rewrite (before_app _ _ _ Ssh). rewrite !append_cons. simpl. apply append_nil_r. }
  assert (Hlong : after "/" (sh +:+ "/" +:+ lg) = lg).
  { rewrite (after_app _ _ _ Ssh). reflexivity. }
  pose proof (parse_spec (canonical sh lg cap ph)) as Hs.
  unfold accepted, descriptor in Hs. rewrite Hport, Hcap, Hafter in Hs.
  rewrite Hbefore, Hlong, (without_none _ _ Slg), Hne in Hs.
  rewrite !allb_app, occurs_app in Hs.
  rewrite (allb_impl JS.isWord sepOrWord sh), (allb_impl JS.isWord sepOrWord lg) in Hs;
    try assumption;
    try (intros c Hc; unfold sepOrWord; rewrite Hc; apply orb_true_r).
  rewrite !append_cons, !append_nil_l in Hs. simpl in Hs.
  rewrite orb_true_r in Hs. exact Hs.
Qed.

(** What [toString] renders for a descriptor built by [parse]. *)
Lemma toString_canonical (o : ArgOpt.t) :
  (ArgOpt.capture o = false -> ArgOpt.placeholder o = "") ->
  ArgOpt.toString o
  = canonical (ArgOpt.short o) (ArgOpt.long o) (ArgOpt.capture o)
      (ArgOpt.placeholder o).
Proof.
  intros H. unfold ArgOpt.toString, canonical.
  destruct (ArgOpt.capture o); [reflexivity|]. now rewrite H.
Qed.

End Grammar.

(** ** Own properties *)

Section Props.

Lemma getOwn_alterOwn (f : ArgOpt.t -> ArgOpt.t) (k : string) (o : props) :
  getOwn k (alterOwn f k o) = option_map f (getOwn k o).
Proof.
  induction o as [|[k' v] o IH]; simpl; [reflexivity|].
  destruct (String.eqb k' k) eqn:E; simpl; rewrite E; [reflexivity | exact IH].
Qed.

Lemma getOwn_alterOwn_ne (f : ArgOpt.t -> ArgOpt.t) (k k' : string) (o : props) :
  k <> k' -> getOwn k' (alterOwn f k o) = getOwn k' o.
Proof.
  intros Hne. induction o as [|[k0 v] o IH]; simpl; [reflexivity|].
  destruct (String.eqb_spec k0 k) as [->|Hk]; simpl.
  - destruct (String.eqb_spec k k'); [contradiction | reflexivity].
  - destruct (String.eqb k0 k'); [reflexivity | exact IH].
Qed.

Lemma keys_alterOwn (f : ArgOpt.t -> ArgOpt.t) (k : string) (o : props) :
  keys (alterOwn f k o) = keys o.
Proof.
  induction o as [|[k' v] o IH]; simpl; [reflexivity|].
  destruct (String.eqb k' k); simpl; [reflexivity | now rewrite IH].
Qed.

Lemma getOwn_In (k : string) (v : ArgOpt.t) (o : props) :
  In (k, v) o -> exists v', getOwn k o = Some v'.
Proof.
  induction o as [|[k' v'] o IH]; simpl; [contradiction|].
  intros [H|H].
  - injection H as -> ->. rewrite String.eqb_refl. eauto.
  - destruct (String.eqb k' k); eauto.
Qed.

Lemma getOwn_NoDup (k : string) (v : ArgOpt.t) (o : props) :
  NoDup (keys o) -> In (k, v) o -> getOwn k o = Some v.
Proof.
  induction o as [|[k' v'] o IH]; simpl; [contradiction|].
  intros Hnd [H|H].
  - injection H as -> ->. now rewrite String.eqb_refl.
  - apply NoDup_cons in Hnd as [Hk' Hnd].
    destruct (String.eqb_spec k' k) as [->|Hne]; [|auto].
    exfalso. apply Hk'. apply list_elem_of_In.
    change k with (fst (k, v)). now apply in_map.
Qed.

(** [resetOpt] forgets what a pass wrote. *)
Lemma reset_setProc (b : bool) (v : ArgOpt.t) :
  setProc false (setCaptured "" (setProc b v)) = setProc false (setCaptured "" v).
Proof. reflexivity. Qed.

Lemma reset_setCaptured (s : string) (v : ArgOpt.t) :
  setProc false (setCaptured "" (setCaptured s v)) = setProc false (setCaptured "" v).
Proof. reflexivity. Qed.

Lemma resetProps_alterOwn (f : ArgOpt.t -> ArgOpt.t) (k : string) (o : props) :
  (forall v, setProc false (setCaptured "" (f v)) = setProc false (setCaptured "" v)) ->
  resetProps (alterOwn f k o) = resetProps o.
Proof.
  intros Hf. induction o as [|[k' v] o IH]; simpl; [reflexivity|].
  destruct (String.eqb k' k); simpl; [now rewrite Hf | now rewrite IH].
Qed.

Lemma resetProps_idem (o : props) : resetProps (resetProps o) = resetProps o.
Proof.
  unfold resetProps. rewrite map_map. apply map_ext. now intros [k v].
Qed.


(** Two registries that differ in [proc] and [captured] only select the
    same descriptor for a key. *)
Lemma find_hits_reset (long : bool) (key : string) (o o' : props) :
  resetProps o = resetProps o' ->
  match find (hits long key) o, find (hits long key) o' with
  | Some (k, a), Some (k', a') =>
      k = k' /\ ArgOpt.capture a = ArgOpt.capture a'
  | None, None => True
  | _, _ => False
  end.
Proof.
  revert o'. induction o as [|[k v] o IH]; intros [|[k' v'] o']; simpl;
    try discriminate; [trivial|].
  intros H.
  assert (Hrest : resetProps o = resetProps o') by (simpl in H; congruence).
  unfold setProc, setCaptured in H. simpl in H.
  assert (Hk : k = k') by congruence.
  assert (Hs : ArgOpt.short v = ArgOpt.short v') by congruence.
  assert (Hl : ArgOpt.long v = ArgOpt.long v') by congruence.
  assert (Hc : ArgOpt.capture v = ArgOpt.capture v') by congruence.
  assert (Hh : hits long key (k', v') = hits long key (k, v))
    by (unfold hits; simpl; now rewrite Hs, Hl).
  rewrite Hh. destruct (hits long key (k, v)).
  - now split.
  - now apply IH.
Qed.

Lemma matchOf_reset (o o' : props) (tok : string) :
  resetProps o = resetProps o' ->
  match matchOf o tok, matchOf o' tok with
  | Some (k, a), Some (k', a') =>
      k = k' /\ ArgOpt.capture a = ArgOpt.capture a'
  | None, None => True
  | _, _ => False
  end.
Proof.
  intros H. unfold matchOf. destruct (classify tok) as [optKey long].
  destruct (JS.truthy optKey); [now apply find_hits_reset | trivial].
Qed.

Lemma find_In (long : bool) (key k : string) (a : ArgOpt.t) (o : props) :
  find (hits long key) o = Some (k, a) -> In (k, a) o /\ hits long key (k, a) = true.
Proof. apply find_some. Qed.

End Props.

(** ** One iteration of the scan *)

Section Step.

Variables (strict : bool) (args : list string) (iter : nat).

(** The token is the value the previous option waits for. *)
Lemma processArg_pending (arg : string) (o : props) (l : locals) (v : ArgOpt.t) :
  captureNext l = true -> getOwn (lastCapKey l) o = Some v ->
  processArg strict args iter arg o l
  = (alterOwn (setCaptured arg) (lastCapKey l) o,
     {| filtered := filtered l; captureNext := false; lastCapKey := "" |}, None).
Proof. intros Hp Hk. unfold processArg. now rewrite Hp, Hk. Qed.

(** The token selects no descriptor. *)
Lemma processArg_unmatched (arg : string) (o : props) (l : locals) :
  captureNext l = false -> matchOf o arg = None ->
  processArg strict args iter arg o l
  = if optionShaped arg && strict then (o, l, Some (unrecognized arg))
    else (o, push arg l, None).
Proof.
  intros Hp Hm. unfold processArg, matchOf, optionShaped in *. rewrite Hp.
  destruct (classify arg) as [optKey long]. simpl.
  destruct (JS.truthy optKey) eqn:Ek; simpl.
  - unfold lookup. rewrite Hm. simpl. now destruct strict.
  - rewrite !andb_false_r. reflexivity.
Qed.

(** The token selects the descriptor [a], filed under [k]. *)
Lemma processArg_matched (arg : string) (o : props) (l : locals)
    (k : string) (a : ArgOpt.t) :
  captureNext l = false -> matchOf o arg = Some (k, a) ->
  processArg strict args iter arg o l
  = let o1 := alterOwn (setProc true) k o in
    if ArgOpt.capture a then
      match inlineValue arg with
      | Some val =>
          if JS.truthy val then (alterOwn (setCaptured val) k o1, l, None)
          else (o1, l, Some (mustSupply arg))
      | None =>
          match nth_error args (S iter) with
          | None => (o1, l, Some (mustSupply arg))
          | Some _ =>
              (o1, {| filtered := filtered l; captureNext := true;
                      lastCapKey := k |}, None)
          end
      end
    else (o1, l, None).
Proof.
  intros Hp Hm. unfold processArg, matchOf, inlineValue in *. rewrite Hp.
  destruct (classify arg) as [optKey long]. cbn [fst snd].
  destruct (JS.truthy optKey) eqn:Ek; [|discriminate].
  unfold lookup. rewrite Hm. destruct (ArgOpt.capture a); cbv zeta.
  - rewrite search_occurs. destruct (occurs "=" optKey) eqn:Eo.
    + pose proof (strlen_nonneg (before "=" optKey)) as Hn.
      destruct (JS.strlen (before "=" optKey) =? -1) eqn:E1; [lia|]. simpl.
      rewrite <- (substringFrom_search _ _ Eo), search_occurs, Eo.
      destruct (JS.truthy (JS.substringFrom optKey _)); simpl; [|reflexivity].
      now rewrite !andb_false_r.
    + destruct (nth_error args (S iter)); simpl; [|reflexivity].
      now rewrite !andb_false_r.
  - simpl. now rewrite !andb_false_r.
Qed.

(** An iteration writes [proc] and [captured] only. *)
Lemma processArg_reset (arg : string) (o : props) (l : locals) :
  resetProps (fst (fst (processArg strict args iter arg o l))) = resetProps o.
Proof.
  destruct (captureNext l) eqn:Hp.
  - destruct (getOwn (lastCapKey l) o) as [v|] eqn:Hk.
    + rewrite (processArg_pending _ _ _ _ Hp Hk). simpl.
      apply resetProps_alterOwn, reset_setCaptured.
    + unfold processArg. now rewrite Hp, Hk.
  - destruct (matchOf o arg) as [[k a]|] eqn:Hm.
    + rewrite (processArg_matched _ _ _ _ _ Hp Hm). cbv zeta.
      destruct (ArgOpt.capture a); [destruct (inlineValue arg) as [val|];
        [destruct (JS.truthy val) | destruct (nth_error args (S iter))]|];
        cbn [fst snd]; now rewrite !resetProps_alterOwn by (intros; reflexivity).
    + rewrite (processArg_unmatched _ _ _ Hp Hm).
      now destruct (optionShaped arg && strict).
Qed.

(** An iteration appends at most its own token to [filtered]. *)
Lemma processArg_filtered (arg : string) (o o' : props) (l l' : locals) :
  processArg strict args iter arg o l = (o', l', None) ->
  filtered l' = filtered l
                ++ (if captureNext l then []
                    else match matchOf o arg with
                         | Some _ => []
                         | None => [arg]
                         end)
  /\ captureNext l'
     = (if captureNext l then false
        else match matchOf o arg with
             | Some (_, a) =>
                 ArgOpt.capture a
                 && match inlineValue arg with None => true | Some _ => false end
             | None => false
             end).
Proof.
  destruct (captureNext l) eqn:Hp.
  - destruct (getOwn (lastCapKey l) o) as [v|] eqn:Hk.
    + rewrite (processArg_pending _ _ _ _ Hp Hk). intros [= <- <-]. simpl.
      now rewrite app_nil_r.
    + unfold processArg. rewrite Hp, Hk. discriminate.
  - destruct (matchOf o arg) as [[k a]|] eqn:Hm.
    + rewrite (processArg_matched _ _ _ _ _ Hp Hm). cbv zeta.
      destruct (ArgOpt.capture a); [destruct (inlineValue arg) as [val|];
        [destruct (JS.truthy val) | destruct (nth_error args (S iter))]|];
        intros [= <- <-]; simpl; now rewrite ?app_nil_r.
    + rewrite (processArg_unmatched _ _ _ Hp Hm).
      destruct (optionShaped arg && strict); intros [= <- <-]. now simpl.
Qed.

End Step.

(** ** The scan *)

Section Scan.

Variables (strict : bool) (args : list string).

Lemma scan_app (iter : nat) (pre rest : list string) (o : props) (l : locals) :
  scan strict args iter (pre ++ rest) o l
  = match scan strict args iter pre o l with
    | (o', l', None) => scan strict args (iter + List.length pre) rest o' l'
    | r => r
    end.
Proof.
  revert iter o l. induction pre as [|tok pre IH]; intros iter o l; simpl.
  - now rewrite Nat.add_0_r.
  - destruct (processArg strict args iter tok o l) as [[o1 l1] [e|]];
      [reflexivity|].
    rewrite IH. now replace (S iter + List.length pre)%nat with (iter + S (List.length pre))%nat by lia.
Qed.

(** A scan writes [proc] and [captured] only. *)
Lemma scan_reset (iter : nat) (rest : list string) (o : props) (l : locals) :
  resetProps (fst (fst (scan strict args iter rest o l))) = resetProps o.
Proof.
  revert iter o l. induction rest as [|tok rest IH]; intros iter o l; simpl;
    [reflexivity|].
  pose proof (processArg_reset strict args iter tok o l) as Hstep.
  destruct (processArg strict args iter tok o l) as [[o1 l1] [e|]]; simpl in *;
    [exact Hstep|].
  now rewrite IH.
Qed.

End Scan.

Lemma positionals_reset (o o' : props) (pending : bool) (tokens : list string) :
  resetProps o = resetProps o' ->
  positionals o pending tokens = positionals o' pending tokens.
Proof.
  intros H. revert pending. induction tokens as [|tok rest IH]; intros pending;
    simpl; [reflexivity|].
  destruct pending; [apply IH|].
  pose proof (matchOf_reset o o' tok H) as Hm.
  destruct (matchOf o tok) as [[k a]|], (matchOf o' tok) as [[k' a']|];
    try contradiction.
  - destruct Hm as [_ ->]. apply IH.
  - now rewrite IH.
Qed.

(** What a scan that ends without a failure has appended to [filtered]. *)
Lemma scan_filtered (strict : bool) (args : list string) (iter : nat)
    (rest : list string) (o o' : props) (l l' : locals) :
  scan strict args iter rest o l = (o', l', None) ->
  filtered l' = filtered l ++ positionals o (captureNext l) rest.
Proof.
  revert iter o l. induction rest as [|tok rest IH]; intros iter o l; simpl.
  - intros [= <- <-]. now rewrite app_nil_r.
  - pose proof (processArg_reset strict args iter tok o l) as Hreset.
    destruct (processArg strict args iter tok o l) as [[o1 l1] [e|]] eqn:Estep;
      [discriminate|].
    intros Hscan.
    destruct (processArg_filtered _ _ _ _ _ _ _ _ Estep) as [Hf Hc].
    simpl in Hreset.
    rewrite (IH _ _ _ Hscan), Hf, Hc.
    rewrite <- (positionals_reset o o1) by (symmetry; exact Hreset).
    destruct (captureNext l); [now rewrite app_nil_r|].
    destruct (matchOf o tok) as [[k a]|].
    + now rewrite app_nil_r.
    + now rewrite <- app_assoc.
Qed.

Lemma positionals_sublist (o : props) (pending : bool) (tokens : list string) :
  sublist (positionals o pending tokens) tokens.
Proof.
  revert pending. induction tokens as [|tok rest IH]; intros pending; simpl.
  - constructor.
  - destruct pending; [apply sublist_cons, IH|].
    destruct (matchOf o tok) as [[k a]|].
    + apply sublist_cons, IH.
    + apply sublist_skip, IH.
Qed.

(** ** Short forms in a registry with distinct shorts *)

Lemma shorts_resetProps (o : props) : shorts (resetProps o) = shorts o.
Proof.
  unfold shorts, resetProps. rewrite map_map. apply map_ext. now intros [k v].
Qed.

Lemma keys_resetProps (o : props) : keys (resetProps o) = keys o.
Proof.
  unfold keys, resetProps. rewrite map_map. apply map_ext. now intros [k v].
Qed.

(** With distinct shorts, a short form selects the one descriptor that
    has it. *)
Lemma find_short (k : string) (a : ArgOpt.t) (o : props) :
  NoDup (shorts o) -> In (k, a) o ->
  find (hits false (ArgOpt.short a)) o = Some (k, a).
Proof.
  induction o as [|[k' a'] o IH]; simpl; [contradiction|].
  intros Hnd [H|H].
  - injection H as -> ->. unfold hits. simpl. now rewrite String.eqb_refl.
  - apply NoDup_cons in Hnd as [Hnot Hnd]. unfold hits at 1. simpl.
    destruct (String.eqb_spec (ArgOpt.short a) (ArgOpt.short a')) as [E|_];
      [|auto].
    exfalso. apply Hnot. rewrite <- E. apply list_elem_of_In.
    change (ArgOpt.short a) with ((fun kv : string * ArgOpt.t => ArgOpt.short (snd kv)) (k, a)).
    now apply in_map.
Qed.

Lemma In_resetProps (k : string) (a : ArgOpt.t) (o : props) :
  In (k, a) o -> In (k, setProc false (setCaptured "" a)) (resetProps o).
Proof.
  intros H. unfold resetProps.
  change (k, setProc false (setCaptured "" a))
    with ((fun kv : string * ArgOpt.t =>
             (fst kv, setProc false (setCaptured "" (snd kv)))) (k, a)).
  now apply in_map.
Qed.

(** ** Registration *)

Section Registration.

Lemma matching_result (iter : nat) (opt : ArgOpt.t) (miter : nat)
    (mopts : list ArgOpt.t) :
  matching iter opt miter mopts = Return tt
  \/ throwsReferenceError (matching iter opt miter mopts).
Proof.
  revert miter. induction mopts as [|mopt rest IH]; intros miter; simpl.
  - now left.
  - destruct (iter =? miter)%nat; [apply IH|].
    destruct (String.eqb _ _); [right; eexists; reflexivity|].
    destruct (String.eqb _ _); [right; eexists; reflexivity|].
    apply IH.
Qed.

(** [opt] meets a descriptor with its short at another position. *)
Lemma matching_collision (iter : nat) (opt b : ArgOpt.t) (miter p : nat)
    (mopts : list ArgOpt.t) :
  nth_error mopts p = Some b -> iter <> (miter + p)%nat ->
  ArgOpt.short opt = ArgOpt.short b ->
  throwsReferenceError (matching iter opt miter mopts).
Proof.
  revert miter p. induction mopts as [|mopt rest IH]; intros miter p Hp Hne Hs.
  - now destruct p.
  - simpl. destruct p as [|p]; simpl in Hp.
    + injection Hp as ->. rewrite Nat.add_0_r in Hne.
      destruct (Nat.eqb_spec iter miter); [contradiction|].
      rewrite Hs, String.eqb_refl. eexists. reflexivity.
    + destruct (iter =? miter)%nat.
      * apply (IH (S miter) p Hp); [lia | exact Hs].
      * destruct (String.eqb _ _); [eexists; reflexivity|].
        destruct (String.eqb _ _); [eexists; reflexivity|].
        apply (IH (S miter) p Hp); [lia | exact Hs].
Qed.

Lemma constructorLoop_collision (all : list ArgOpt.t) (iter p : nat)
    (rest : list ArgOpt.t) (a : ArgOpt.t) (this : t) :
  nth_error rest p = Some a ->
  throwsReferenceError (matching (iter + p) a 0 all) ->
  throwsReferenceError (constructorLoop all iter rest this).
Proof.
  revert iter p this. induction rest as [|opt rest IH]; intros iter p this Hp Hthrow.
  - now destruct p.
  - simpl. destruct p as [|p]; simpl in Hp.
    + injection Hp as ->. rewrite Nat.add_0_r in Hthrow.
      destruct Hthrow as [msg ->]. eexists. reflexivity.
    + destruct (matching_result iter opt 0 all) as [->|[msg ->]].
      * simpl. apply (IH (S iter) p _ Hp).
        now replace (S iter + p)%nat with (iter + S p)%nat by lia.
      * eexists. reflexivity.
Qed.

Lemma pushCheck_collision (opt mopt : ArgOpt.t) (values : list ArgOpt.t) :
  In mopt values -> ArgOpt.short opt = ArgOpt.short mopt ->
  ArgOpt.long opt <> ArgOpt.long mopt ->
  throwsReferenceError (pushCheck opt values).
Proof.
  induction values as [|v rest IH]; simpl; [contradiction|].
  intros Hin Hs Hl.
  destruct (String.eqb (ArgOpt.short opt) (ArgOpt.short v)
            && negb (String.eqb (ArgOpt.long opt) (ArgOpt.long v))) eqn:E.
  - eexists. reflexivity.
  - destruct Hin as [->|Hin]; [|auto].
    rewrite Hs, String.eqb_refl in E. simpl in E.
    apply negb_false_iff, String.eqb_eq in E. contradiction.
Qed.

(** Without a collision the checks pass. *)
Lemma matching_distinct (iter : nat) (opt : ArgOpt.t) (miter : nat)
    (mopts : list ArgOpt.t) :
  (forall p b, nth_error mopts p = Some b -> iter <> (miter + p)%nat ->
               ArgOpt.short opt <> ArgOpt.short b
               /\ ArgOpt.long opt <> ArgOpt.long b) ->
  matching iter opt miter mopts = Return tt.
Proof.
  revert miter. induction mopts as [|mopt rest IH]; intros miter H; simpl;
    [reflexivity|].
  assert (Hrest : matching iter opt (S miter) rest = Return tt).
  { apply IH. intros p b Hp Hne. apply (H (S p) b Hp). lia. }
  destruct (Nat.eqb_spec iter miter) as [_|Hne]; [exact Hrest|].
  destruct (H 0%nat mopt eq_refl) as [Hs Hl]; [lia|].
  destruct (String.eqb_spec (ArgOpt.short opt) (ArgOpt.short mopt));
    [contradiction|].
  destruct (String.eqb_spec (ArgOpt.long opt) (ArgOpt.long mopt));
    [contradiction | exact Hrest].
Qed.

Lemma constructorLoop_distinct (all : list ArgOpt.t) (iter : nat)
    (rest : list ArgOpt.t) (this : t) :
  (forall p a, nth_error rest p = Some a ->
               matching (iter + p) a 0 all = Return tt) ->
  exists this', constructorLoop all iter rest this = Return this'.
Proof.
  revert iter this. induction rest as [|opt rest IH]; intros iter this H; simpl.
  - eauto.
  - pose proof (H 0%nat opt eq_refl) as H0. rewrite Nat.add_0_r in H0.
    rewrite H0. simpl.
    apply IH. intros p a Hp.
    replace (S iter + p)%nat with (iter + S p)%nat by lia. now apply H.
Qed.

Lemma pushCheck_distinct (opt : ArgOpt.t) (values : list ArgOpt.t) :
  (forall mopt, In mopt values -> ArgOpt.short opt = ArgOpt.short mopt ->
                ArgOpt.long opt = ArgOpt.long mopt) ->
  pushCheck opt values = Return tt.
Proof.
  induction values as [|v rest IH]; intros H; simpl; [reflexivity|].
  destruct (String.eqb_spec (ArgOpt.short opt) (ArgOpt.short v)) as [Hs|_]; simpl.
  - rewrite (H v (or_introl eq_refl) Hs), String.eqb_refl. simpl.
    apply IH. intros mopt Hin. apply H. now right.
  - apply IH. intros mopt Hin. apply H. now right.
Qed.

End Registration.

(** ** Queries *)

Lemma member_undefined (field : ArgOpt.t -> Value) :
  member VUndefined field = Throw TypeError.
Proof. reflexivity. Qed.

(** A key that is an own property answers with its descriptor. *)
Lemma query_registered (this : t) (long : string) (o : ArgOpt.t) :
  getOwn long (opts this) = Some o ->
  proced this long = Return (VBoolean (ArgOpt.proc o))
  /\ value this long = Return (VString (ArgOpt.captured o)).
Proof. intros H. unfold proced, value, getOpts. now rewrite H. Qed.

(** A key that neither the registry nor its prototype chain knows makes
    both queries throw. *)
Lemma query_unknown (this : t) (long : string) :
  getOwn long (opts this) = None ->
  getInherited (optsProto this) long = VUndefined ->
  proced this long = Throw TypeError /\ value this long = Throw TypeError.
Proof. intros H1 H2. unfold proced, value, getOpts. now rewrite H1, H2. Qed.

(** ** Passes *)

Lemma scan_cons (strict : bool) (args : list string) (iter : nat) (tok : string)
    (rest : list string) (o : props) (l : locals) :
  scan strict args iter (tok :: rest) o l
  = match processArg strict args iter tok o l with
    | (o', l', Some e) => (o', l', Some e)
    | (o', l', None) => scan strict args (S iter) rest o' l'
    end.
Proof. reflexivity. Qed.

(** A call of [process] that has gone through [pre] goes on from there. *)
Lemma process_scanned (this : t) (pre rest : list string) (o : props) (l : locals) :
  scanned this (pre ++ rest) pre o l ->
  process this (pre ++ rest)
  = processFrom (resetOpt this) (pre ++ rest) (List.length pre) rest o l.
Proof.
  unfold scanned, process, processFrom. intros H. simpl.
  now rewrite scan_app, H.
Qed.

Lemma scanned_reset (this : t) (args pre : list string) (o : props) (l : locals) :
  scanned this args pre o l -> resetProps o = resetProps (opts this).
Proof.
  unfold scanned. intros H.
  pose proof (scan_reset (strict this) args 0 pre (resetProps (opts this)) initial) as Hr.
  rewrite H in Hr. simpl in Hr. now rewrite Hr, resetProps_idem.
Qed.


Lemma resetOpt_process (this : t) (args : list string) :
  resetOpt (fst (process this args)) = resetOpt this.
Proof.
  unfold process, processFrom.
  pose proof (scan_reset (strict (resetOpt this)) args 0 args
                (opts (resetOpt this)) initial) as Hr.
  destruct (scan _ _ _ _ _ _) as [[o l] e]. simpl in *.
  unfold resetOpt, withOpts. simpl. now rewrite Hr, resetProps_idem.
Qed.

Lemma substringFrom_1 (a : ascii) (s : string) : JS.substringFrom (String a s) 1 = s.
Proof.
  unfold JS.substringFrom, JS.substring, JS.clamp. rewrite strlen_String.
  pose proof (strlen_nonneg s) as Hn. set (n := JS.strlen s) in *.
  replace (Z.max 0 (Z.min 1 (n + 1))) with 1 by lia.
  replace (Z.max 0 (Z.min (n + 1) (n + 1))) with (n + 1) by lia.
  rewrite Z.min_l, Z.max_r by lia.
  replace (n + 1 - 1) with n by lia. subst n. unfold JS.strlen.
  rewrite Nat2Z.id. simpl. apply take_all.
Qed.

Lemma occurs_count (c : ascii) (s : string) :
  occurs c s = (1 <=? count c s)%nat.
Proof.
  induction s as [|a s IH]; simpl; [reflexivity|].
  destruct (Ascii.eqb a c); simpl; [reflexivity | exact IH].
Qed.

(** ** The failures of a pass *)

Section Failures.

Variables (strict : bool) (args : list string).

Lemma getOwn_alterOwn_Some (f : ArgOpt.t -> ArgOpt.t) (k k' : string) (o : props) :
  (exists v, getOwn k' o = Some v) -> exists v, getOwn k' (alterOwn f k o) = Some v.
Proof.
  intros [v Hv]. destruct (String.eqb_spec k k') as [->|Hne].
  - rewrite getOwn_alterOwn, Hv. simpl. eauto.
  - rewrite getOwn_alterOwn_ne by exact Hne. eauto.
Qed.

Lemma matchOf_own (o : props) (tok k : string) (a : ArgOpt.t) :
  matchOf o tok = Some (k, a) -> exists v, getOwn k o = Some v.
Proof.
  unfold matchOf. destruct (classify tok) as [optKey long].
  destruct (JS.truthy optKey); [|discriminate].
  intros [Hin _]%find_In. eapply getOwn_In, Hin.
Qed.

Lemma processArg_waiting (iter : nat) (arg : string) (o : props) (l : locals) :
  waitingOwn o l ->
  match processArg strict args iter arg o l with
  | (o', l', None) => waitingOwn o' l'
  | (_, _, Some e) => isReferenceError e = true
  end.
Proof.
  intros Hw. destruct (captureNext l) eqn:Hp.
  - destruct (Hw Hp) as [v Hv].
    rewrite (processArg_pending _ _ _ _ _ _ _ Hp Hv). intros H. discriminate H.
  - destruct (matchOf o arg) as [[k a]|] eqn:Hm.
    + rewrite (processArg_matched _ _ _ _ _ _ _ _ Hp Hm). cbv zeta.
      destruct (ArgOpt.capture a); [destruct (inlineValue arg) as [val|];
        [destruct (JS.truthy val) | destruct (nth_error args (S iter))]|];
        try reflexivity; unfold waitingOwn; rewrite ?Hp; try discriminate.
      simpl. intros _. apply getOwn_alterOwn_Some. eapply matchOf_own, Hm.
    + rewrite (processArg_unmatched _ _ _ _ _ _ Hp Hm).
      destruct (optionShaped arg && strict); [reflexivity|].
      unfold waitingOwn. simpl. rewrite Hp. discriminate.
Qed.

Lemma scan_ReferenceError (iter : nat) (rest : list string) (o : props) (l : locals) :
  waitingOwn o l ->
  match scan strict args iter rest o l with
  | (_, _, None) => True
  | (_, _, Some e) => isReferenceError e = true
  end.
Proof.
  revert iter o l. induction rest as [|tok rest IH]; intros iter o l Hw; simpl;
    [trivial|].
  pose proof (processArg_waiting iter tok o l Hw) as Hstep.
  destruct (processArg strict args iter tok o l) as [[o1 l1] [e|]];
    [exact Hstep | apply IH, Hstep].
Qed.


End Failures.


(** A pass fails with a [ReferenceError] or not at all. *)
Lemma process_ReferenceError (this : t) (args : list string) (e : Exn) :
  snd (process this args) = Throw e -> isReferenceError e = true.
Proof.
  unfold process, processFrom.
  pose proof (scan_ReferenceError (strict (resetOpt this)) args 0 args
                (opts (resetOpt this)) initial) as H.
  destruct (scan _ _ _ _ _ _) as [[o l] [e'|]]; simpl; [|discriminate].
  intros [= <-]. apply H. intros Hc. discriminate Hc.
Qed.

(** ** The registry invariant is established and kept *)

Section Invariant.

Lemma insertIndex_Permutation (n : N) (k : string) (v : ArgOpt.t) (o : props) :
  Permutation ((k, v) :: o) (insertIndex n k v o).
Proof.
  induction o as [|[k' v'] o IH]; simpl; [reflexivity|].
  destruct (arrayIndex k') as [n'|]; [|reflexivity].
  destruct (n' <? n)%N; [|reflexivity].
  rewrite <- IH. apply perm_swap.
Qed.

Lemma defineOwn_Permutation (k : string) (v : ArgOpt.t) (o : props) :
  Permutation ((k, v) :: o) (defineOwn k v o).
Proof.
  unfold defineOwn. destruct (arrayIndex k) as [n|].
  - apply insertIndex_Permutation.
  - apply Permutation_cons_append.
Qed.

Lemma wellFormed_Permutation (o o' : props) :
  Permutation o o' -> wellFormed o -> wellFormed o'.
Proof.
  intros Hp (Hk & Hs & Hl). repeat split.
  - unfold keys. now rewrite <- (Permutation_map fst Hp).
  - unfold shorts. now rewrite <- (Permutation_map _ Hp).
  - now rewrite <- Hp.
Qed.

Lemma wellFormed_cons (k : string) (v : ArgOpt.t) (o : props) :
  wellFormed o -> ~ In k (keys o) -> ~ In (ArgOpt.short v) (shorts o) ->
  k = ArgOpt.long v -> wellFormed ((k, v) :: o).
Proof.
  intros (Hk & Hs & Hl) Hnk Hns Hkv. repeat split; simpl.
  - apply NoDup_cons. split; [now rewrite list_elem_of_In | exact Hk].
  - apply NoDup_cons. split; [now rewrite list_elem_of_In | exact Hs].
  - now constructor.
Qed.

Lemma wellFormed_tail (kv : string * ArgOpt.t) (o : props) :
  wellFormed (kv :: o) -> wellFormed o.
Proof.
  intros (Hk & Hs & Hl). simpl in *.
  apply NoDup_cons in Hk as [_ Hk]. apply NoDup_cons in Hs as [_ Hs].
  inversion Hl; subst. now repeat split.
Qed.

Lemma deleteOwn_In (k : string) (kv : string * ArgOpt.t) (o : props) :
  In kv (deleteOwn k o) -> In kv o.
Proof.
  induction o as [|[k' v'] o IH]; simpl; [trivial|].
  destruct (String.eqb k' k); simpl; intuition.
Qed.

Lemma deleteOwn_wellFormed (k : string) (o : props) :
  wellFormed o -> wellFormed (deleteOwn k o) /\ ~ In k (keys (deleteOwn k o)).
Proof.
  induction o as [|[k' v'] o IH]; simpl; [intros H; split; [exact H | tauto]|].
  intros Hwf. pose proof (wellFormed_tail _ _ Hwf) as Hwf'.
  destruct Hwf as (Hk & Hs & Hl). simpl in *.
  apply NoDup_cons in Hk as [Hnk Hk]. apply NoDup_cons in Hs as [Hns Hs].
  rewrite list_elem_of_In in Hnk, Hns. inversion Hl as [|? ? Hkv Hl']; subst.
  destruct (String.eqb_spec k' k) as [->|Hne].
  - split; [exact Hwf' | exact Hnk].
  - destruct (IH Hwf') as [IH1 IH2]. split.
    + apply wellFormed_cons; [exact IH1| | |exact Hkv].
      * intros Hin. apply Hnk. unfold keys in *. apply in_map_iff in Hin
          as [kv [E Hin]]. apply in_map_iff. exists kv.
        split; [exact E | eapply deleteOwn_In, Hin].
      * intros Hin. apply Hns. unfold shorts in *. apply in_map_iff in Hin
          as [kv [E Hin]]. apply in_map_iff. exists kv.
        split; [exact E | eapply deleteOwn_In, Hin].
    + simpl. intros [E|Hin]; [congruence | contradiction].
Qed.

Lemma getOwn_None (k : string) (o : props) : ~ In k (keys o) -> getOwn k o = None.
Proof.
  induction o as [|[k' v'] o IH]; simpl; [reflexivity|].
  intros Hn. destruct (String.eqb_spec k' k) as [->|Hne]; [tauto|].
  apply IH. tauto.
Qed.

(** Filing a fresh descriptor under its long keeps the invariant. *)
Lemma setOpts_wellFormed (this : t) (opt : ArgOpt.t) :
  wellFormed (opts this) ->
  ~ In (ArgOpt.long opt) (keys (opts this)) ->
  ~ In (ArgOpt.short opt) (shorts (opts this)) ->
  wellFormed (opts (setOpts this (ArgOpt.long opt) opt))
  /\ forall kv, In kv (opts (setOpts this (ArgOpt.long opt) opt)) ->
                kv = (ArgOpt.long opt, opt) \/ In kv (opts this).
Proof.
  intros Hwf Hnk Hns. unfold setOpts. rewrite (getOwn_None _ _ Hnk).
  destruct (String.eqb (ArgOpt.long opt) "__proto__"); simpl.
  - split; [exact Hwf | auto].
  - split.
    + eapply wellFormed_Permutation; [apply defineOwn_Permutation|].
      now apply wellFormed_cons.
    + intros kv Hin.
      apply (Permutation_in _ (Permutation_sym (defineOwn_Permutation _ _ _))) in Hin.
      destruct Hin as [<-|Hin]; auto.
Qed.

Lemma pushCheck_Return (opt mopt : ArgOpt.t) (values : list ArgOpt.t) :
  pushCheck opt values = Return tt -> In mopt values ->
  ArgOpt.short opt = ArgOpt.short mopt -> ArgOpt.long opt = ArgOpt.long mopt.
Proof.
  induction values as [|v rest IH]; simpl; [contradiction|].
  destruct (String.eqb (ArgOpt.short opt) (ArgOpt.short v)
            && negb (String.eqb (ArgOpt.long opt) (ArgOpt.long v))) eqn:E;
    [discriminate|].
  intros Hr [->|Hin] Hs; [|auto].
  rewrite Hs, String.eqb_refl in E. simpl in E.
  now apply negb_false_iff, String.eqb_eq in E.
Qed.

(** [pushOpt] keeps the invariant. *)
Lemma pushOpt_wellFormed (this this' : t) (opt : ArgOpt.t) :
  wellFormed (opts this) -> pushOpt this opt = Return this' ->
  wellFormed (opts this').
Proof.
  intros Hwf. unfold pushOpt.
  destruct (pushCheck opt (map snd (opts this))) as [[]|e] eqn:Hcheck;
    [|discriminate].
  simpl. intros [= <-].
  assert (Hdrop : wellFormed (opts (dropOpt this (ArgOpt.long opt)))
                  /\ ~ In (ArgOpt.long opt) (keys (opts (dropOpt this (ArgOpt.long opt))))
                  /\ forall kv, In kv (opts (dropOpt this (ArgOpt.long opt))) ->
                                In kv (opts this)).
  { unfold dropOpt. destruct (String.eqb (ArgOpt.long opt) "*"); simpl.
    - repeat split; try constructor; tauto.
    - destruct (deleteOwn_wellFormed (ArgOpt.long opt) _ Hwf) as [H1 H2].
      repeat split; try apply H1; [exact H2|]. intros kv. apply deleteOwn_In. }
  destruct Hdrop as (Hwf1 & Hnk & Hsub).
  apply setOpts_wellFormed; [exact Hwf1 | exact Hnk|].
  intros Hin. unfold shorts in Hin. apply in_map_iff in Hin as [[k m] [E Hin]].
  simpl in E. apply Hnk. unfold keys. apply in_map_iff. exists (k, m).
  split; [|exact Hin]. simpl.
  destruct Hwf as (_ & _ & Hl). rewrite Forall_forall in Hl.
  pose proof (Hl (k, m) (proj2 (list_elem_of_In _ _) (Hsub _ Hin))) as Hkm.
  simpl in Hkm. rewrite Hkm. symmetry.
  apply (pushCheck_Return opt m _ Hcheck); [|now symmetry].
  change m with (snd (k, m)). apply in_map, Hsub, Hin.
Qed.

Lemma matching_Return (iter : nat) (opt b : ArgOpt.t) (miter p : nat)
    (mopts : list ArgOpt.t) :
  matching iter opt miter mopts = Return tt ->
  nth_error mopts p = Some b -> iter <> (miter + p)%nat ->
  ArgOpt.short opt <> ArgOpt.short b /\ ArgOpt.long opt <> ArgOpt.long b.
Proof.
  revert miter p. induction mopts as [|mopt rest IH]; intros miter p Hr Hp Hne.
  - now destruct p.
  - simpl in Hr. destruct p as [|p]; simpl in Hp.
    + injection Hp as ->. rewrite Nat.add_0_r in Hne.
      destruct (Nat.eqb_spec iter miter); [contradiction|].
      destruct (String.eqb_spec (ArgOpt.short opt) (ArgOpt.short b));
        [discriminate|].
      destruct (String.eqb_spec (ArgOpt.long opt) (ArgOpt.long b));
        [discriminate|]. now split.
    + destruct (iter =? miter)%nat.
      * apply (IH (S miter) p Hr Hp). lia.
      * destruct (String.eqb _ _); [discriminate|].
        destruct (String.eqb _ _); [discriminate|].
        apply (IH (S miter) p Hr Hp). lia.
Qed.

Lemma constructorLoop_wellFormed (all : list ArgOpt.t) (iter : nat)
    (rest : list ArgOpt.t) (this this' : t) :
  (forall p a, nth_error rest p = Some a -> nth_error all (iter + p) = Some a) ->
  wellFormed (opts this) ->
  (forall k v, In (k, v) (opts this) ->
               exists j, (j < iter)%nat /\ nth_error all j = Some v) ->
  constructorLoop all iter rest this = Return this' ->
  wellFormed (opts this').
Proof.
  revert iter this. induction rest as [|opt rest IH]; intros iter this Hpos Hwf Hseen.
  - simpl. now intros [= <-].
  - simpl. destruct (matching iter opt 0 all) as [[]|e] eqn:Hm; [|discriminate].
    simpl. intros Hloop.
    assert (Hfresh : forall k v, In (k, v) (opts this) ->
                       ArgOpt.short opt <> ArgOpt.short v
                       /\ ArgOpt.long opt <> ArgOpt.long v).
    { intros k v Hin. destruct (Hseen k v Hin) as (j & Hj & Hnth).
      apply (matching_Return iter opt v 0 j all Hm Hnth). simpl. lia. }
    assert (Hnk : ~ In (ArgOpt.long opt) (keys (opts this))).
    { intros Hin. unfold keys in Hin. apply in_map_iff in Hin as [[k v] [E Hin]].
      simpl in E. destruct (Hfresh k v Hin) as [_ Hl]. apply Hl.
      destruct Hwf as (_ & _ & Hkl). rewrite Forall_forall in Hkl.
      rewrite <- E. apply (Hkl (k, v)), list_elem_of_In, Hin. }
    assert (Hns : ~ In (ArgOpt.short opt) (shorts (opts this))).
    { intros Hin. unfold shorts in Hin. apply in_map_iff in Hin as [[k v] [E Hin]].
      simpl in E. destruct (Hfresh k v Hin) as [Hs _]. now apply Hs. }
    destruct (setOpts_wellFormed this opt Hwf Hnk Hns) as [Hwf' Hin'].
    apply (IH (S iter) (setOpts this (ArgOpt.long opt) opt));
      [| exact Hwf' | | exact Hloop].
    + intros p a Hp. replace (S iter + p)%nat with (iter + S p)%nat by lia.
      now apply Hpos.
    + intros k v Hin. destruct (Hin' _ Hin) as [[= -> ->]|Hold].
      * exists iter. split; [lia|]. rewrite <- (Nat.add_0_r iter). now apply Hpos.
      * destruct (Hseen k v Hold) as (j & Hj & Hnth). exists j. split; [lia | exact Hnth].
Qed.

(** The constructor establishes the invariant. *)
Lemma constructor_wellFormed (l : list ArgOpt.t) (this : t) :
  ArgProcessor.constructor l = Return this -> wellFormed (opts this).
Proof.
  unfold ArgProcessor.constructor. apply constructorLoop_wellFormed.
  - now intros p a.
  - repeat split; constructor.
  - intros k v [].
Qed.

(** A pass keeps the invariant. *)
Lemma process_wellFormed (this : t) (args : list string) :
  wellFormed (opts this) -> wellFormed (opts (fst (process this args))).
Proof.
  intros (Hk & Hs & Hl).
  pose proof (resetOpt_process this args) as Hr.
  assert (E : resetProps (opts (fst (process this args))) = resetProps (opts this))
    by (change (opts (resetOpt (fst (process this args))) = opts (resetOpt this));
        now rewrite Hr).
  repeat split.
  - rewrite <- keys_resetProps, E, keys_resetProps. exact Hk.
  - rewrite <- shorts_resetProps, E, shorts_resetProps. exact Hs.
  - assert (Hl' : Forall (fun kv => fst kv = ArgOpt.long (snd kv)) (resetProps (opts this))).
    { unfold resetProps. apply Forall_map. eapply List.Forall_impl; [|exact Hl].
      now intros [k v]. }
    rewrite <- E in Hl'. unfold resetProps in Hl'. apply Forall_map in Hl'.
    eapply List.Forall_impl; [|exact Hl']. now intros [k v].
Qed.

End Invariant.

(** What a token selects in the registry a pass started from and in the
    registry the pass has reached is the same descriptor. *)
Lemma matchOf_scanned (this : t) (args pre : list string) (o : props) (l : locals)
    (tok k : string) (a : ArgOpt.t) :
  scanned this args pre o l -> matchOf (opts this) tok = Some (k, a) ->
  exists a', matchOf o tok = Some (k, a') /\ ArgOpt.capture a' = ArgOpt.capture a.
Proof.
  intros Hs Hm. pose proof (matchOf_reset _ _ tok (scanned_reset _ _ _ _ _ Hs)) as H.
  rewrite Hm in H. destruct (matchOf o tok) as [[k' a']|]; [|contradiction].
  destruct H as [-> Hc]. eauto.
Qed.

Lemma matchOf_scanned_None (this : t) (args pre : list string) (o : props)
    (l : locals) (tok : string) :
  scanned this args pre o l -> matchOf (opts this) tok = None ->
  matchOf o tok = None.
Proof.
  intros Hs Hm. pose proof (matchOf_reset _ _ tok (scanned_reset _ _ _ _ _ Hs)) as H.
  rewrite Hm in H. now destruct (matchOf o tok) as [[k' a']|].
Qed.

(** ** The claims *)

(** C1. After a pass over the demo registry, [proced] and [value] answer
    for the registered keys with the hit flag and the captured string, but
    for the unknown key [nope] both throw a [TypeError] where their
    documentation promises [undefined]. *)
Theorem query_unknown_key_throws :
  let this := fst (process (Demo.registry true) ["app"; "--help"]) in
  proced this "help" = Return (VBoolean true)
  /\ value this "input" = Return (VString "")
  /\ proced this "nope" = Throw TypeError
  /\ value this "nope" = Throw TypeError.
Proof. repeat split. Qed.

(** C2, as stated, fails: the portion of [h//help] holds two separators
    and [parse] accepts it. *)
Lemma parse_second_separator_accepted :
  count "/" (portion "h//help") = 2%nat
  /\ ArgOpt.parse "h//help"
     = Return {| ArgOpt.p_short := "h"; ArgOpt.p_long := "help";
                 ArgOpt.p_capture := false; ArgOpt.p_placeholder := "" |}
  /\ ~ throwsSyntaxError (ArgOpt.parse "h//help").
Proof.
  split; [reflexivity|]. split; [reflexivity|]. intros [msg H]. discriminate H.
Qed.

(** C2, amended. [parse] skips every separator: it fails with a
    [SyntaxError] exactly when the short/long portion holds a character
    that is neither a separator nor a word character, holds no separator,
    or holds no word character after its first separator. Otherwise
    [short] is the text before the first separator and [long] the text
    after it without its separators, however many there are. *)
Theorem parse_separators_skipped (s : string) :
  (if accepted (portion s) then ArgOpt.parse s = Return (descriptor s)
   else throwsSyntaxError (ArgOpt.parse s))
  /\ accepted (portion s)
     = allb sepOrWord (portion s)
       && (1 <=? count "/" (portion s))%nat
       && JS.truthy (without "/" (after "/" (portion s))).
Proof.
  split; [apply parse_spec|]. unfold accepted. now rewrite occurs_count.
Qed.

(** C3, as stated, fails: [/foo] and [/bar] have different longs and both
    an empty short, and neither the constructor nor [pushOpt] takes the
    two. *)
Lemma empty_shorts_rejected :
  throwsReferenceError (ArgProcessor.constructor [Demo.foo; Demo.bar])
  /\ exists this,
       ArgProcessor.constructor [Demo.foo] = Return this
       /\ throwsReferenceError (pushOpt this Demo.bar).
Proof.
  split; [eexists; reflexivity|].
  eexists. split; [reflexivity|]. eexists. reflexivity.
Qed.

(** C3, amended. A short collision is rejected whether or not the short
    is empty: the constructor fails with a [ReferenceError] when two
    positions of its list hold the same short, and [pushOpt] fails with a
    [ReferenceError] when a registered descriptor with another long has
    the short of the new one. Both succeed otherwise: the constructor when
    no two positions share a short or a long, [pushOpt] when every
    registered descriptor with the short of the new one has its long. *)
Theorem short_collision_rejected :
  (forall (l : list ArgOpt.t) (i j : nat) (a b : ArgOpt.t),
      nth_error l i = Some a -> nth_error l j = Some b -> i <> j ->
      ArgOpt.short a = ArgOpt.short b ->
      throwsReferenceError (ArgProcessor.constructor l))
  /\ (forall (this : t) (opt : ArgOpt.t) (k : string) (mopt : ArgOpt.t),
         In (k, mopt) (opts this) ->
         ArgOpt.short opt = ArgOpt.short mopt ->
         ArgOpt.long opt <> ArgOpt.long mopt ->
         throwsReferenceError (pushOpt this opt))
  /\ (forall l : list ArgOpt.t,
         (forall (i j : nat) (a b : ArgOpt.t),
             nth_error l i = Some a -> nth_error l j = Some b -> i <> j ->
             ArgOpt.short a <> ArgOpt.short b /\ ArgOpt.long a <> ArgOpt.long b) ->
         exists this, ArgProcessor.constructor l = Return this)
  /\ (forall (this : t) (opt : ArgOpt.t),
         (forall (k : string) (mopt : ArgOpt.t),
             In (k, mopt) (opts this) ->
             ArgOpt.short opt = ArgOpt.short mopt ->
             ArgOpt.long opt = ArgOpt.long mopt) ->
         exists this', pushOpt this opt = Return this').
Proof.
  split; [|split; [|split]].
  - intros l i j a b Hi Hj Hne Hs. unfold ArgProcessor.constructor.
    apply (constructorLoop_collision l 0 i l a _ Hi).
    apply (matching_collision _ a b 0 j l Hj); [simpl; lia | exact Hs].
  - intros this opt k mopt Hin Hs Hl. unfold pushOpt.
    destruct (pushCheck_collision opt mopt (map snd (opts this))) as [msg ->];
      [|exact Hs|exact Hl|eexists; reflexivity].
    change mopt with (snd (k, mopt)). now apply in_map.
  - intros l H. unfold ArgProcessor.constructor.
    apply constructorLoop_distinct. intros p a Hp. simpl.
    apply matching_distinct. intros q b Hq Hne. simpl in Hne.
    now apply (H p q).
  - intros this opt H. unfold pushOpt. rewrite pushCheck_distinct; [simpl; eauto|].
    intros mopt Hin. apply in_map_iff in Hin as [[k m] [<- Hin]]. simpl.
    now apply (H k).
Qed.

Lemma short_collision_rejected_witness :
  (nth_error [Demo.help; Demo.halt] 0 = Some Demo.help
   /\ nth_error [Demo.help; Demo.halt] 1 = Some Demo.halt
   /\ 0%nat <> 1%nat
   /\ ArgOpt.short Demo.help = ArgOpt.short Demo.halt)
  /\ throwsReferenceError (ArgProcessor.constructor [Demo.help; Demo.halt])
  /\ (In ("foo", Demo.foo)
        (opts {| strict := true; opts := [("foo", Demo.foo)]; optsProto := None |})
      /\ ArgOpt.short Demo.bar = ArgOpt.short Demo.foo
      /\ ArgOpt.long Demo.bar <> ArgOpt.long Demo.foo)
  /\ throwsReferenceError
       (pushOpt {| strict := true; opts := [("foo", Demo.foo)]; optsProto := None |}
          Demo.bar)
  /\ (exists this, pushOpt (Demo.registry true) Demo.foo = Return this).
Proof.
  split; [repeat split; lia|]. split; [|split; [|split]].
  - apply (proj1 short_collision_rejected [Demo.help; Demo.halt] 0%nat 1%nat
             Demo.help Demo.halt); [reflexivity | reflexivity | lia | reflexivity].
  - repeat split; [simpl; auto | discriminate].
  - apply (proj1 (proj2 short_collision_rejected) _ Demo.bar "foo" Demo.foo);
      [simpl; auto | reflexivity | discriminate].
  - apply (proj2 (proj2 (proj2 short_collision_rejected)) (Demo.registry true)
             Demo.foo).
    intros k mopt [[= <- <-]|[[= <- <-]|[]]]; discriminate.
Defined.

(** C4. In a well-formed registry that holds a capturing option with short
    [i] under the key [input], [-i] followed by any token [v] marks [input]
    as hit and captures [v] whole, whatever [v] looks like, and returns
    the positional [app] alone; [-i=v], for a non-empty [v], leaves the
    same registry and returns the same list. *)
Theorem capture_next_or_inline (this : t) (o : ArgOpt.t) (v : string) :
  wellFormed (opts this) ->
  In ("input", o) (opts this) ->
  ArgOpt.short o = "i" -> ArgOpt.capture o = true ->
  let final :=
    withOpts (resetOpt this)
      (alterOwn (setCaptured v) "input"
         (alterOwn (setProc true) "input" (resetProps (opts this)))) in
  process this ["app"; "-i"; v] = (final, Return ["app"])
  /\ proced final "input" = Return (VBoolean true)
  /\ value final "input" = Return (VString v)
  /\ (JS.truthy v = true ->
      process this ["app"; "-i=" +:+ v] = (final, Return ["app"])).
Proof.
  intros (Hkeys & Hshorts & Hlong) Hin Hshort Hcap final.
  set (o0 := resetProps (opts this)).
  assert (Hfind : find (hits false "i") o0
                  = Some ("input", setProc false (setCaptured "" o))).
  { rewrite <- Hshort.
    apply (find_short "input" (setProc false (setCaptured "" o)) o0).
    - unfold o0. now rewrite shorts_resetProps.
    - now apply In_resetProps. }
  assert (Hown : getOwn "input" o0 = Some (setProc false (setCaptured "" o))).
  { apply getOwn_NoDup; [unfold o0; now rewrite keys_resetProps|].
    now apply In_resetProps. }
  assert (Happ : forall args iter l,
             captureNext l = false ->
             processArg (strict this) args iter "app" o0 l = (o0, push "app" l, None)).
  { intros args iter l Hl.
    now rewrite (processArg_unmatched _ _ _ "app" o0 l Hl eq_refl). }
  assert (Hfinal : getOwn "input" (opts final)
                   = Some (setCaptured v (setProc true
                             (setProc false (setCaptured "" o))))).
  { unfold final, withOpts. simpl opts. fold o0.
    now rewrite !getOwn_alterOwn, Hown. }
  split; [|split; [|split]].
  - unfold process, processFrom. simpl strict. simpl opts. fold o0.
    rewrite scan_cons, Happ by reflexivity.
    rewrite scan_cons.
    rewrite (processArg_matched _ _ _ "-i" o0 (push "app" initial) "input" _
               eq_refl Hfind).
    simpl ArgOpt.capture. rewrite Hcap. cbv zeta.
    change (inlineValue "-i") with (@None string).
    change (nth_error ["app"; "-i"; v] 2) with (Some v). cbv beta iota.
    rewrite scan_cons.
    erewrite processArg_pending;
      [|reflexivity|simpl lastCapKey; rewrite getOwn_alterOwn, Hown; reflexivity].
    reflexivity.
  - apply (query_registered final "input" _ Hfinal).
  - apply (query_registered final "input" _ Hfinal).
  - intros Hv. unfold process, processFrom. simpl strict. simpl opts. fold o0.
    rewrite scan_cons, Happ by reflexivity.
    rewrite scan_cons.
    assert (Hm : matchOf o0 ("-i=" +:+ v)
                 = Some ("input", setProc false (setCaptured "" o))).
    { unfold matchOf. rewrite !append_cons, append_nil_l.
      change (classify (String "-" (String "i" (String "=" v))))
        with (JS.substringFrom (String "-" (String "i" (String "=" v))) 1, false).
      rewrite substringFrom_1. simpl JS.truthy. cbv iota.
      unfold lookupKey. rewrite substring_search by reflexivity. exact Hfind. }
    assert (Hi : inlineValue ("-i=" +:+ v) = Some v).
    { unfold inlineValue. rewrite !append_cons, append_nil_l.
      change (classify (String "-" (String "i" (String "=" v))))
        with (JS.substringFrom (String "-" (String "i" (String "=" v))) 1, false).
      simpl fst. rewrite substringFrom_1. reflexivity. }
    rewrite (processArg_matched _ _ _ _ o0 (push "app" initial) "input" _
               eq_refl Hm).
    simpl ArgOpt.capture. rewrite Hcap, Hi, Hv. cbv beta iota zeta.
    reflexivity.
Qed.

Lemma capture_next_or_inline_witness :
  (wellFormed (opts (Demo.registry true))
   /\ In ("input", Demo.input) (opts (Demo.registry true))
   /\ ArgOpt.short Demo.input = "i" /\ ArgOpt.capture Demo.input = true)
  /\ process (Demo.registry true) ["app"; "-i"; "img.png"]
     = process (Demo.registry true) ["app"; "-i=img.png"]
  /\ snd (process (Demo.registry true) ["app"; "-i"; "img.png"]) = Return ["app"]
  /\ proced (fst (process (Demo.registry true) ["app"; "-i"; "img.png"])) "input"
     = Return (VBoolean true)
  /\ value (fst (process (Demo.registry true) ["app"; "-i"; "img.png"])) "input"
     = Return (VString "img.png").
Proof.
  assert (Hwf : wellFormed (opts (Demo.registry true))).
  { repeat split.
    - simpl. apply (bool_decide_unpack _). vm_compute. exact I.
    - simpl. apply (bool_decide_unpack _). vm_compute. exact I.
    - repeat constructor. }
  split; [repeat split; try apply Hwf; simpl; auto|].
  destruct (capture_next_or_inline (Demo.registry true) Demo.input "img.png"
              Hwf (or_intror (or_introl eq_refl)) eq_refl eq_refl)
    as (H1 & _ & _ & H3).
  split; [|split; [|split]].
  - rewrite H1. symmetry. exact (H3 eq_refl).
  - now rewrite H1.
  - now rewrite H1.
  - now rewrite H1.
Defined.

(** C5. When the scan examines a token, no option waiting for its value,
    and the token selects a capturing descriptor, the pass fails with the
    [ReferenceError] "must supply value" if the token carries an inline
    [=] with nothing after it, and also if it carries no inline value and
    is the last token. *)
Theorem missing_value_fails (this : t) (pre post : list string) (tok : string)
    (o : props) (l : locals) (k : string) (a : ArgOpt.t) :
  scanned this (pre ++ tok :: post) pre o l -> captureNext l = false ->
  matchOf (opts this) tok = Some (k, a) -> ArgOpt.capture a = true ->
  inlineValue tok = Some "" \/ (inlineValue tok = None /\ post = []) ->
  snd (process this (pre ++ tok :: post))
  = Throw (ReferenceError ("must supply value for " +:+ JS.quoted tok +:+ ".")).
Proof.
  intros Hs Hl Hm Hc Hv.
  destruct (matchOf_scanned _ _ _ _ _ _ _ _ Hs Hm) as (a' & Hm' & Hc').
  rewrite (process_scanned _ _ _ _ _ Hs). unfold processFrom.
  rewrite scan_cons, (processArg_matched _ _ _ _ _ _ _ _ Hl Hm').
  rewrite Hc', Hc. cbv zeta. destruct Hv as [->|[-> ->]].
  - reflexivity.
  - rewrite (proj2 (nth_error_None _ _)); [reflexivity|].
    rewrite length_app. simpl. lia.
Qed.

Lemma missing_value_fails_witness :
  (scanned (Demo.registry true) (["app"] ++ ["-i="]) ["app"]
     (opts (Demo.registry true)) (push "app" initial)
   /\ matchOf (opts (Demo.registry true)) "-i=" = Some ("input", Demo.input)
   /\ inlineValue "-i=" = Some "")
  /\ throwsReferenceError (snd (process (Demo.registry true) ["app"; "-i="]))
  /\ (matchOf (opts (Demo.registry true)) "-i" = Some ("input", Demo.input)
      /\ inlineValue "-i" = None)
  /\ throwsReferenceError (snd (process (Demo.registry true) ["app"; "-i"])).
Proof.
  split; [repeat split|]. split; [|split; [repeat split|]].
  - eexists.
    apply (missing_value_fails (Demo.registry true) ["app"] [] "-i="
             (opts (Demo.registry true)) (push "app" initial) "input" Demo.input);
      [reflexivity | reflexivity | reflexivity | reflexivity | left; reflexivity].
  - eexists.
    apply (missing_value_fails (Demo.registry true) ["app"] [] "-i"
             (opts (Demo.registry true)) (push "app" initial) "input" Demo.input);
      [reflexivity | reflexivity | reflexivity | reflexivity
      | right; split; reflexivity].
Defined.

(** C6. When the scan examines a token, no option waiting for its value,
    and the token is option-shaped and selects no descriptor, a strict
    processor fails with the [ReferenceError] "Unrecognized option" that
    quotes the token as written, and a lenient one appends the token as
    written to the positional output and goes on with the next token, so
    that the token is part of any list the pass returns. *)
Theorem unrecognized_option (this : t) (pre post : list string) (tok : string)
    (o : props) (l : locals) :
  scanned this (pre ++ tok :: post) pre o l -> captureNext l = false ->
  optionShaped tok = true -> matchOf (opts this) tok = None ->
  if strict this then
    process this (pre ++ tok :: post)
    = (withOpts (resetOpt this) o,
       Throw (ReferenceError ("Unrecognized option: " +:+ JS.quoted tok)))
  else
    process this (pre ++ tok :: post)
    = processFrom (resetOpt this) (pre ++ tok :: post) (S (List.length pre)) post
        o (push tok l)
    /\ filtered (push tok l) = filtered l ++ [tok]
    /\ forall out, snd (process this (pre ++ tok :: post)) = Return out ->
                   exists more, out = filtered l ++ tok :: more.
Proof.
  intros Hs Hl Hshape Hm.
  pose proof (matchOf_scanned_None _ _ _ _ _ _ Hs Hm) as Hm'.
  rewrite (process_scanned _ _ _ _ _ Hs). unfold processFrom.
  rewrite scan_cons, (processArg_unmatched _ _ _ _ _ _ Hl Hm'), Hshape.
  change (strict (resetOpt this)) with (strict this).
  destruct (strict this); simpl andb; cbv iota; [reflexivity|].
  split; [reflexivity|]. split; [reflexivity|].
  intros out.
  destruct (scan false (pre ++ tok :: post) (S (List.length pre)) post o (push tok l))
    as [[o' l'] [e|]] eqn:Hscan; simpl; [discriminate|].
  intros [= <-]. rewrite (scan_filtered _ _ _ _ _ _ _ _ Hscan). simpl.
  rewrite <- app_assoc. eauto.
Qed.

Lemma unrecognized_option_witness :
  (scanned (Demo.registry true) (["app"] ++ ["--nope"]) ["app"]
     (opts (Demo.registry true)) (push "app" initial)
   /\ optionShaped "--nope" = true
   /\ matchOf (opts (Demo.registry true)) "--nope" = None)
  /\ throwsReferenceError (snd (process (Demo.registry true) ["app"; "--nope"]))
  /\ snd (process (Demo.registry false) ["app"; "--nope"])
     = Return ["app"; "--nope"].
Proof.
  split; [repeat split|]. split.
  - eexists.
    pose proof (unrecognized_option (Demo.registry true) ["app"] [] "--nope"
                  (opts (Demo.registry true)) (push "app" initial)
                  eq_refl eq_refl eq_refl eq_refl) as H.
    simpl in H. now rewrite H.
  - pose proof (unrecognized_option (Demo.registry false) ["app"] [] "--nope"
                  (opts (Demo.registry false)) (push "app" initial)
                  eq_refl eq_refl eq_refl eq_refl) as H.
    simpl in H. destruct H as (H & _ & _). now rewrite H.
Defined.

(** C7. For a descriptor built from a declaration that [parse] accepts,
    [toString] renders the canonical form [short/long], followed by [=] and
    the placeholder exactly when the descriptor captures, and parsing that
    rendering gives back the same [short], [long], [capture] and
    [placeholder]. *)
Theorem toString_parse_roundtrip (s d : string) (o : ArgOpt.t) :
  ArgOpt.constructor s d = Return o ->
  ArgOpt.parse s = Return (fields o)
  /\ ArgOpt.toString o
     = canonical (ArgOpt.short o) (ArgOpt.long o) (ArgOpt.capture o)
         (ArgOpt.placeholder o)
  /\ ArgOpt.parse (ArgOpt.toString o) = Return (fields o)
  /\ ArgOpt.constructor (ArgOpt.toString o) d = Return o.
Proof.
  unfold ArgOpt.constructor. destruct (ArgOpt.parse s) as [p|e] eqn:Hp; [|discriminate].
  simpl. intros [= <-].
  destruct (parse_fields s p Hp) as (Hsh & Hlg & Hne & Hph).
  destruct p as [sh lg cap ph]. simpl in *. unfold fields. simpl.
  split; [reflexivity|].
  rewrite toString_canonical by exact Hph. simpl.
  split; [reflexivity|].
  rewrite (parse_canonical sh lg ph cap Hsh Hlg Hne Hph).
  split; reflexivity.
Qed.

Lemma toString_parse_roundtrip_witness :
  ArgOpt.constructor "i/input=file_path" "Input a file."
  = Return (ArgOpt.mk "i" "input" "file_path" "Input a file." true "" false)
  /\ ArgOpt.toString (ArgOpt.mk "i" "input" "file_path" "Input a file." true "" false)
     = "i/input=file_path"
  /\ ArgOpt.parse "i/input=file_path"
     = Return (ArgOpt.mkParsed "i" "input" true "file_path").
Proof.
  split; [reflexivity|].
  destruct (toString_parse_roundtrip "i/input=file_path" "Input a file."
              (ArgOpt.mk "i" "input" "file_path" "Input a file." true "" false)
              eq_refl) as (_ & H1 & H2 & _).
  split; [exact H1 | exact H2].
Defined.


(** C9. The list a pass returns is the list of the positional tokens of
    its input, in the order of the input: the tokens that select no
    descriptor and are not the value a capturing option waited for. With
    [help] and the capturing [input] registered, the tokens [a], [--help],
    [b], [-i], [c], [d] give [a], [b], [d], strict or not. *)
Theorem process_returns_positionals :
  (forall (this : t) (args out : list string),
      snd (process this args) = Return out ->
      out = positionals (opts this) false args /\ sublist out args)
  /\ (forall strict : bool,
         snd (process (Demo.registry strict) ["a"; "--help"; "b"; "-i"; "c"; "d"])
         = Return ["a"; "b"; "d"]).
Proof.
  split.
  - intros this args out. unfold process, processFrom.
    destruct (scan _ _ _ _ _ _) as [[o' l'] [e|]] eqn:Hscan; simpl;
      [discriminate|].
    intros [= <-]. rewrite (scan_filtered _ _ _ _ _ _ _ _ Hscan). simpl.
    rewrite (positionals_reset _ (opts this)) by apply resetProps_idem.
    split; [reflexivity | apply positionals_sublist].
  - now intros [|].
Qed.

Lemma process_returns_positionals_witness :
  snd (process (Demo.registry false) ["a"; "--nope"; "-i"; "--help"; "-"])
  = Return ["a"; "--nope"; "-"]
  /\ positionals (opts (Demo.registry false)) false
       ["a"; "--nope"; "-i"; "--help"; "-"]
     = ["a"; "--nope"; "-"]
  /\ sublist ["a"; "--nope"; "-"] ["a"; "--nope"; "-i"; "--help"; "-"].
Proof.
  split; [reflexivity|].
  destruct (proj1 process_returns_positionals (Demo.registry false)
              ["a"; "--nope"; "-i"; "--help"; "-"] ["a"; "--nope"; "-"] eq_refl)
    as [H1 H2].
  split; [symmetry; exact H1 | exact H2].
Defined.




(** * Further properties of the code *)

(** * Further properties *)

(** ** The failures of [parse] *)




(** ** Lookups after the writes to [this.opts] *)

Section Lookups.

Lemma getOwn_app_None (k : string) (v : ArgOpt.t) (o : props) :
  getOwn k o = None -> getOwn k (o ++ [(k, v)]) = Some v.
Proof.
  induction o as [|[k' v'] o IH]; simpl.
  - now rewrite String.eqb_refl.
  - destruct (String.eqb k' k); [discriminate | exact IH].
Qed.

Lemma getOwn_app_ne (k k' : string) (v : ArgOpt.t) (o : props) :
  k <> k' -> getOwn k' (o ++ [(k, v)]) = getOwn k' o.
Proof.
  intros Hne. induction o as [|[k0 v0] o IH]; simpl.
  - now destruct (String.eqb_spec k k').
  - destruct (String.eqb k0 k'); [reflexivity | exact IH].
Qed.

Lemma getOwn_insertIndex_None (n : N) (k : string) (v : ArgOpt.t) (o : props) :
  getOwn k o = None -> getOwn k (insertIndex n k v o) = Some v.
Proof.
  induction o as [|[k' v'] o IH]; simpl.
  - now rewrite String.eqb_refl.
  - destruct (String.eqb k' k) eqn:E; [discriminate|]. intros H.
    destruct (arrayIndex k') as [n'|]; [destruct (n' <? n)%N|]; simpl;
      rewrite ?E, ?String.eqb_refl; auto.
Qed.

Lemma getOwn_insertIndex_ne (n : N) (k k' : string) (v : ArgOpt.t) (o : props) :
  k <> k' -> getOwn k' (insertIndex n k v o) = getOwn k' o.
Proof.
  intros Hne. apply String.eqb_neq in Hne.
  induction o as [|[k0 v0] o IH]; simpl; [now rewrite Hne|].
  destruct (arrayIndex k0) as [n'|]; [destruct (n' <? n)%N|]; simpl;
    rewrite ?Hne; try reflexivity.
  destruct (String.eqb k0 k'); [reflexivity | exact IH].
Qed.

Lemma getOwn_defineOwn (k : string) (v : ArgOpt.t) (o : props) :
  getOwn k o = None -> getOwn k (defineOwn k v o) = Some v.
Proof.
  intros H. unfold defineOwn. destruct (arrayIndex k).
  - now apply getOwn_insertIndex_None.
  - now apply getOwn_app_None.
Qed.

Lemma getOwn_defineOwn_ne (k k' : string) (v : ArgOpt.t) (o : props) :
  k <> k' -> getOwn k' (defineOwn k v o) = getOwn k' o.
Proof.
  intros H. unfold defineOwn. destruct (arrayIndex k).
  - now apply getOwn_insertIndex_ne.
  - now apply getOwn_app_ne.
Qed.

Lemma getOwn_deleteOwn_ne (k k' : string) (o : props) :
  k <> k' -> getOwn k' (deleteOwn k o) = getOwn k' o.
Proof.
  intros Hne. induction o as [|[k0 v0] o IH]; simpl; [reflexivity|].
  destruct (String.eqb_spec k0 k) as [->|Hk]; simpl.
  - now destruct (String.eqb_spec k k').
  - destruct (String.eqb k0 k'); [reflexivity | exact IH].
Qed.

Lemma getOwn_deleteOwn (k : string) (o : props) :
  NoDup (keys o) -> getOwn k (deleteOwn k o) = None.
Proof.
  induction o as [|[k0 v0] o IH]; simpl; [reflexivity|].
  intros [Hnot Hnd]%NoDup_cons.
  destruct (String.eqb_spec k0 k) as [->|Hk]; simpl.
  - apply getOwn_None. now rewrite <- list_elem_of_In.
  - destruct (String.eqb_spec k0 k); [contradiction | auto].
Qed.

Lemma deleteOwn_absent (k : string) (o : props) :
  getOwn k o = None -> deleteOwn k o = o.
Proof.
  induction o as [|[k0 v0] o IH]; simpl; [reflexivity|].
  destruct (String.eqb k0 k); [discriminate|]. intros H. now rewrite IH.
Qed.

Lemma keys_deleteOwn_NoDup (k : string) (o : props) :
  NoDup (keys o) -> NoDup (keys (deleteOwn k o)).
Proof.
  induction o as [|[k0 v0] o IH]; simpl; [trivial|].
  intros [Hnot Hnd]%NoDup_cons. destruct (String.eqb k0 k); [exact Hnd|].
  simpl. apply NoDup_cons. split; [|auto].
  rewrite list_elem_of_In in *. intros Hin. apply Hnot.
  unfold keys in *. apply in_map_iff in Hin as [kv [E Hin]].
  apply in_map_iff. exists kv. split; [exact E | eapply deleteOwn_In, Hin].
Qed.

Lemma deleteOwn_sublist (k : string) (o : props) : sublist (deleteOwn k o) o.
Proof.
  induction o as [|[k0 v0] o IH]; simpl; [constructor|].
  destruct (String.eqb k0 k); [now apply sublist_cons | now apply sublist_skip].
Qed.

Lemma withOpts_opts (this : t) : withOpts this (opts this) = this.
Proof. now destruct this. Qed.

End Lookups.

(** X2. [dropOpt] of the wildcard leaves no descriptor; of a key that is
    not registered it changes nothing; of a registered key it removes that
    descriptor and keeps the others, in their order. *)
Theorem dropOpt_removes (this : t) :
  opts (dropOpt this "*") = []
  /\ (forall k, k <> "*" -> getOwn k (opts this) = None -> dropOpt this k = this)
  /\ (forall k, k <> "*" -> NoDup (keys (opts this)) ->
        getOwn k (opts (dropOpt this k)) = None
        /\ (forall k', k' <> k ->
              getOwn k' (opts (dropOpt this k)) = getOwn k' (opts this))
        /\ sublist (opts (dropOpt this k)) (opts this)).
Proof.
  split; [reflexivity|]. split.
  - intros k Hk Hnone. unfold dropOpt.
    destruct (String.eqb_spec k "*"); [contradiction|].
    rewrite (deleteOwn_absent _ _ Hnone). apply withOpts_opts.
  - intros k Hk Hnd. unfold dropOpt.
    destruct (String.eqb_spec k "*"); [contradiction|]. simpl.
    split; [now apply getOwn_deleteOwn|]. split.
    + intros k' Hne. apply getOwn_deleteOwn_ne. congruence.
    + apply deleteOwn_sublist.
Qed.

Lemma dropOpt_removes_witness :
  ("help" <> "*" /\ NoDup (keys (opts (Demo.registry true))))
  /\ getOwn "help" (opts (dropOpt (Demo.registry true) "help")) = None
  /\ getOwn "input" (opts (dropOpt (Demo.registry true) "help")) = Some Demo.input
  /\ dropOpt (Demo.registry true) "nope" = Demo.registry true.
Proof.
  assert (Hnd : NoDup (keys (opts (Demo.registry true))))
    by (simpl; apply (bool_decide_unpack _); vm_compute; exact I).
  split; [split; [discriminate | exact Hnd]|].
  destruct (dropOpt_removes (Demo.registry true)) as (_ & Habsent & Hdrop).
  destruct (Hdrop "help" ltac:(discriminate) Hnd) as (H1 & H2 & _).
  split; [exact H1|]. split.
  - rewrite (H2 "input") by discriminate. reflexivity.
  - apply Habsent; [discriminate | reflexivity].
Defined.

(** X3. After a [pushOpt] that returns, the descriptor is the one
    registered under its long, and every other key holds what it held:
    insertion replaces at most the descriptor of the same long. *)
Theorem pushOpt_lookup (this this' : t) (opt : ArgOpt.t) :
  NoDup (keys (opts this)) ->
  ArgOpt.long opt <> "__proto__" -> ArgOpt.long opt <> "*" ->
  pushOpt this opt = Return this' ->
  getOwn (ArgOpt.long opt) (opts this') = Some opt
  /\ (forall k, k <> ArgOpt.long opt ->
        getOwn k (opts this') = getOwn k (opts this))
  /\ strict this' = strict this.
Proof.
  intros Hnd Hproto Hstar. unfold pushOpt.
  destruct (pushCheck opt (map snd (opts this))) as [[]|e]; [|discriminate].
  simpl. intros [= <-]. unfold dropOpt.
  destruct (String.eqb_spec (ArgOpt.long opt) "*"); [contradiction|].
  unfold setOpts. simpl opts.
  rewrite (getOwn_deleteOwn _ _ Hnd).
  destruct (String.eqb_spec (ArgOpt.long opt) "__proto__"); [contradiction|].
  simpl. split; [|split; [|reflexivity]].
  - apply getOwn_defineOwn. now apply getOwn_deleteOwn.
  - intros k Hk. rewrite getOwn_defineOwn_ne by congruence.
    apply getOwn_deleteOwn_ne. congruence.
Qed.

Lemma pushOpt_lookup_witness :
  (NoDup (keys (opts (Demo.registry true)))
   /\ pushOpt (Demo.registry true) Demo.foo
      = Return (withOpts (Demo.registry true)
                  [("help", Demo.help); ("input", Demo.input); ("foo", Demo.foo)]))
  /\ getOwn "foo" [("help", Demo.help); ("input", Demo.input); ("foo", Demo.foo)]
     = Some Demo.foo.
Proof.
  assert (Hnd : NoDup (keys (opts (Demo.registry true))))
    by (simpl; apply (bool_decide_unpack _); vm_compute; exact I).
  split; [split; [exact Hnd | reflexivity]|].
  destruct (pushOpt_lookup (Demo.registry true) _ Demo.foo Hnd
              ltac:(discriminate) ltac:(discriminate) eq_refl) as (H & _ & _).
  exact H.
Defined.

(** In a registry with distinct shorts, a short names one entry. *)
Lemma shorts_NoDup_inj (o : props) (k1 k2 : string) (m1 m2 : ArgOpt.t) :
  NoDup (shorts o) -> In (k1, m1) o -> In (k2, m2) o ->
  ArgOpt.short m1 = ArgOpt.short m2 -> (k1, m1) = (k2, m2).
Proof.
  induction o as [|[k v] o IH]; simpl; [contradiction|].
  intros [Hnot Hnd]%NoDup_cons H1 H2 Hs. rewrite list_elem_of_In in Hnot.
  assert (Hin : forall k' m', In (k', m') o -> In (ArgOpt.short m') (shorts o)).
  { intros k' m' Hin. unfold shorts. apply in_map_iff. now exists (k', m'). }
  destruct H1 as [[= -> ->]|H1], H2 as [[= -> ->]|H2].
  - reflexivity.
  - exfalso. apply Hnot. rewrite Hs. eapply Hin, H2.
  - exfalso. apply Hnot. rewrite <- Hs. eapply Hin, H1.
  - now apply IH.
Qed.

(** X4. In a well-formed registry, pushing a descriptor that has the
    short and the long of a registered one never fails: this is how a
    descriptor is replaced, say to give it a description or a
    placeholder. So does pushing one whose short no registered descriptor
    has. *)
Theorem pushOpt_replaces_or_adds (this : t) (opt : ArgOpt.t) :
  wellFormed (opts this) ->
  (exists k old, In (k, old) (opts this)
                 /\ ArgOpt.short opt = ArgOpt.short old
                 /\ ArgOpt.long opt = ArgOpt.long old)
  \/ ~ In (ArgOpt.short opt) (shorts (opts this)) ->
  exists this', pushOpt this opt = Return this'
                /\ wellFormed (opts this').
Proof.
  intros Hwf Hcase.
  assert (Hcheck : pushCheck opt (map snd (opts this)) = Return tt).
  { apply pushCheck_distinct. intros mopt Hin Hs.
    apply in_map_iff in Hin as [[k m] [E Hin]]. simpl in E. subst m.
    destruct Hcase as [(k0 & old & Hold & Hs0 & Hl0)|Hfresh].
    - destruct Hwf as (_ & Hshorts & _).
      assert (E : (k, mopt) = (k0, old))
        by (apply (shorts_NoDup_inj _ _ _ _ _ Hshorts Hin Hold); congruence).
      injection E as _ ->. exact Hl0.
    - exfalso. apply Hfresh. rewrite Hs. unfold shorts. apply in_map_iff.
      now exists (k, mopt). }
  destruct (pushOpt this opt) as [this'|e] eqn:Hpush.
  - exists this'. split; [reflexivity|]. eapply pushOpt_wellFormed; eauto.
  - unfold pushOpt in Hpush. rewrite Hcheck in Hpush. discriminate.
Qed.

Lemma pushOpt_replaces_or_adds_witness :
  (wellFormed (opts (Demo.registry true))
   /\ In ("help", Demo.help) (opts (Demo.registry true)))
  /\ exists this',
       pushOpt (Demo.registry true)
         (ArgOpt.mk "h" "help" "" "Show help." false "" false) = Return this'
       /\ wellFormed (opts this').
Proof.
  assert (Hwf : wellFormed (opts (Demo.registry true))).
  { repeat split.
    - simpl. apply (bool_decide_unpack _). vm_compute. exact I.
    - simpl. apply (bool_decide_unpack _). vm_compute. exact I.
    - repeat constructor. }
  split; [split; [exact Hwf | simpl; auto]|].
  apply (pushOpt_replaces_or_adds (Demo.registry true) _ Hwf).
  left. exists "help", Demo.help. split; [simpl; auto | split; reflexivity].
Defined.

(** X5. A descriptor whose long is [__proto__] is never registered: the
    assignment [this.opts[opt.long] = opt] goes to the prototype setter of
    the object, so a [pushOpt] that returns leaves the own properties as
    they were, and every pass returns or throws what it did before the
    push. *)
Theorem proto_long_not_registered (this this' : t) (opt : ArgOpt.t) :
  ArgOpt.long opt = "__proto__" ->
  getOwn "__proto__" (opts this) = None ->
  pushOpt this opt = Return this' ->
  opts this' = opts this
  /\ (forall args, snd (process this' args) = snd (process this args))
  /\ proced this' "__proto__" = Return (VBoolean (ArgOpt.proc opt)).
Proof.
  intros Hlong Hnone. unfold pushOpt.
  destruct (pushCheck opt (map snd (opts this))) as [[]|e]; [|discriminate].
  simpl. intros [= <-]. rewrite Hlong. unfold dropOpt, setOpts. simpl.
  rewrite (deleteOwn_absent _ _ Hnone), Hnone. simpl.
  split; [reflexivity|]. split.
  - intros args. unfold process, processFrom. simpl.
    now destruct (scan _ _ _ _ _ _) as [[o l] e].
  - unfold proced, getOpts. simpl. now rewrite Hnone.
Qed.

Lemma proto_long_not_registered_witness :
  (exists this',
     pushOptStr (Demo.registry true) "p/__proto__" "" = Return this'
     /\ opts this' = opts (Demo.registry true)
     /\ snd (process this' ["--__proto__"])
        = Throw (unrecognized "--__proto__")).
Proof.
  eexists. split; [reflexivity|].
  destruct (proto_long_not_registered (Demo.registry true) _
              (ArgOpt.mk "p" "__proto__" "" "" false "" false)
              eq_refl eq_refl eq_refl) as (H1 & H2 & _).
  split; [exact H1|]. rewrite H2. reflexivity.
Defined.

(** ** What the constructor takes and files *)

Section Construction.

Lemma constructorLoop_result (all : list ArgOpt.t) (iter : nat)
    (rest : list ArgOpt.t) (this : t) :
  (exists this', constructorLoop all iter rest this = Return this')
  \/ throwsReferenceError (constructorLoop all iter rest this).
Proof.
  revert iter this. induction rest as [|opt rest IH]; intros iter this; simpl.
  - left. eauto.
  - destruct (matching_result iter opt 0 all) as [->|[msg ->]]; simpl.
    + apply IH.
    + right. eexists. reflexivity.
Qed.

Lemma constructorLoop_matching (all : list ArgOpt.t) (iter : nat)
    (rest : list ArgOpt.t) (this this' : t) (p : nat) (a : ArgOpt.t) :
  constructorLoop all iter rest this = Return this' ->
  nth_error rest p = Some a -> matching (iter + p) a 0 all = Return tt.
Proof.
  revert iter this p. induction rest as [|opt rest IH]; intros iter this p;
    simpl; [now destruct p|].
  destruct (matching iter opt 0 all) as [[]|e] eqn:Hm; [|discriminate].
  simpl. intros Hloop. destruct p as [|p]; simpl.
  - intros [= <-]. now rewrite Nat.add_0_r.
  - intros Hp. replace (iter + S p)%nat with (S iter + p)%nat by lia.
    eapply IH; eauto.
Qed.

Lemma setOpts_In (this : t) (opt : ArgOpt.t) :
  ~ In (ArgOpt.long opt) (keys (opts this)) ->
  (ArgOpt.long opt <> "__proto__" ->
   In (ArgOpt.long opt, opt) (opts (setOpts this (ArgOpt.long opt) opt)))
  /\ (forall kv, In kv (opts this) ->
                 In kv (opts (setOpts this (ArgOpt.long opt) opt)))
  /\ strict (setOpts this (ArgOpt.long opt) opt) = strict this.
Proof.
  intros Hnk. unfold setOpts. rewrite (getOwn_None _ _ Hnk).
  destruct (String.eqb_spec (ArgOpt.long opt) "__proto__"); simpl.
  - repeat split; [contradiction | auto].
  - repeat split.
    + intros _.
      apply (Permutation_in _ (defineOwn_Permutation _ _ _)). now left.
    + intros kv Hin.
      apply (Permutation_in _ (defineOwn_Permutation _ _ _)). now right.
Qed.

Lemma constructorLoop_registers (all : list ArgOpt.t) (iter : nat)
    (rest : list ArgOpt.t) (this this' : t) :
  (forall p a, nth_error rest p = Some a -> nth_error all (iter + p) = Some a) ->
  wellFormed (opts this) ->
  (forall k v, In (k, v) (opts this) ->
               exists j, (j < iter)%nat /\ nth_error all j = Some v) ->
  constructorLoop all iter rest this = Return this' ->
  strict this' = strict this
  /\ (forall k v, In (k, v) (opts this') ->
                  In (k, v) (opts this) \/ In v rest)
  /\ (forall k v, In (k, v) (opts this) -> In (k, v) (opts this'))
  /\ (forall a, In a rest -> ArgOpt.long a <> "__proto__" ->
                In (ArgOpt.long a, a) (opts this')).
Proof.
  revert iter this. induction rest as [|opt rest IH]; intros iter this Hpos Hwf Hseen.
  - simpl. intros [= <-]. repeat split; auto. intros a [].
  - simpl. destruct (matching iter opt 0 all) as [[]|e] eqn:Hm; [|discriminate].
    simpl. intros Hloop.
    assert (Hfresh : forall k v, In (k, v) (opts this) ->
                       ArgOpt.short opt <> ArgOpt.short v
                       /\ ArgOpt.long opt <> ArgOpt.long v).
    { intros k v Hin. destruct (Hseen k v Hin) as (j & Hj & Hnth).
      apply (matching_Return iter opt v 0 j all Hm Hnth). simpl. lia. }
    assert (Hnk : ~ In (ArgOpt.long opt) (keys (opts this))).
    { intros Hin. unfold keys in Hin. apply in_map_iff in Hin as [[k v] [E Hin]].
      simpl in E. destruct (Hfresh k v Hin) as [_ Hl]. apply Hl.
      destruct Hwf as (_ & _ & Hkl). rewrite Forall_forall in Hkl.
      rewrite <- E. apply (Hkl (k, v)), list_elem_of_In, Hin. }
    assert (Hns : ~ In (ArgOpt.short opt) (shorts (opts this))).
    { intros Hin. unfold shorts in Hin. apply in_map_iff in Hin as [[k v] [E Hin]].
      simpl in E. destruct (Hfresh k v Hin) as [Hs _]. now apply Hs. }
    destruct (setOpts_wellFormed this opt Hwf Hnk Hns) as [Hwf' Hin'].
    destruct (setOpts_In this opt Hnk) as (Hnew & Hold & Hstrict).
    destruct (IH (S iter) (setOpts this (ArgOpt.long opt) opt)) as (H1 & H2 & H3 & H4);
      [| exact Hwf' | | exact Hloop |].
    + intros p a Hp. replace (S iter + p)%nat with (iter + S p)%nat by lia.
      now apply Hpos.
    + intros k v Hin. destruct (Hin' _ Hin) as [[= -> ->]|Hin0].
      * exists iter. split; [lia|]. rewrite <- (Nat.add_0_r iter). now apply Hpos.
      * destruct (Hseen k v Hin0) as (j & Hj & Hnth). exists j. split; [lia | exact Hnth].
    + split; [congruence|]. split; [|split].
      * intros k v Hin. destruct (H2 k v Hin) as [Hin0|Hin0]; [|right; now right].
        destruct (Hin' _ Hin0) as [[= -> ->]|Hin1]; [right; now left | now left].
      * intros k v Hin. apply H3, Hold, Hin.
      * intros a [<-|Hin] Hproto; [apply H3, Hnew, Hproto | now apply H4].
Qed.

End Construction.

(** X6. The constructor takes a list exactly when no two of its positions
    share a short or a long, and when it does not, it fails with a
    [ReferenceError]. *)
Theorem constructor_distinct (l : list ArgOpt.t) :
  ((exists this, ArgProcessor.constructor l = Return this)
   <-> (forall i j a b, nth_error l i = Some a -> nth_error l j = Some b ->
          i <> j ->
          ArgOpt.short a <> ArgOpt.short b /\ ArgOpt.long a <> ArgOpt.long b))
  /\ ((exists this, ArgProcessor.constructor l = Return this)
      \/ throwsReferenceError (ArgProcessor.constructor l)).
Proof.
  split; [split|].
  - intros [this Hc] i j a b Hi Hj Hne. unfold ArgProcessor.constructor in Hc.
    pose proof (constructorLoop_matching _ _ _ _ _ i a Hc Hi) as Hm.
    apply (matching_Return _ a b 0 j l Hm Hj). simpl in *. lia.
  - intros H. unfold ArgProcessor.constructor.
    apply constructorLoop_distinct. intros p a Hp. simpl.
    apply matching_distinct. intros q b Hq Hne. simpl in Hne.
    now apply (H p q).
  - apply constructorLoop_result.
Qed.

Lemma constructor_distinct_witness :
  (exists this, ArgProcessor.constructor [Demo.help; Demo.input] = Return this)
  /\ ArgOpt.short Demo.help <> ArgOpt.short Demo.input
  /\ ArgOpt.long Demo.help <> ArgOpt.long Demo.input
  /\ throwsReferenceError
       (ArgProcessor.constructor
          [Demo.help; ArgOpt.mk "x" "help" "" "" false "" false]).
Proof.
  assert (H : exists this,
             ArgProcessor.constructor [Demo.help; Demo.input] = Return this)
    by (eexists; reflexivity).
  split; [exact H|].
  destruct (proj1 (proj1 (constructor_distinct [Demo.help; Demo.input])) H
              0%nat 1%nat Demo.help Demo.input eq_refl eq_refl ltac:(lia))
    as [Hs Hl].
  split; [exact Hs|]. split; [exact Hl|].
  destruct (constructor_distinct
              [Demo.help; ArgOpt.mk "x" "help" "" "" false "" false])
    as [[Hsucc _] [Hok|Hthrow]]; [|exact Hthrow].
  destruct (Hsucc Hok 0%nat 1%nat _ _ eq_refl eq_refl ltac:(lia)) as [_ Hne].
  now contradiction Hne.
Defined.

(** X7. A processor the constructor returns is strict, its registry is
    well formed, it holds nothing but descriptors of the list, each under
    its long, and it holds every descriptor of the list whose long is not
    [__proto__]. *)
Theorem constructor_registers (l : list ArgOpt.t) (this : t) :
  ArgProcessor.constructor l = Return this ->
  strict this = true
  /\ wellFormed (opts this)
  /\ (forall k v, In (k, v) (opts this) -> In v l /\ k = ArgOpt.long v)
  /\ (forall a, In a l -> ArgOpt.long a <> "__proto__" ->
                getOwn (ArgOpt.long a) (opts this) = Some a).
Proof.
  intros Hc. pose proof (constructor_wellFormed l this Hc) as Hwf.
  unfold ArgProcessor.constructor in Hc.
  destruct (constructorLoop_registers l 0 l
              {| strict := true; opts := []; optsProto := None |} this)
    as (H1 & H2 & _ & H4);
    [now intros p a | repeat split; constructor | intros k v [] | exact Hc |].
  split; [exact H1|]. split; [exact Hwf|]. split.
  - intros k v Hin. destruct (H2 k v Hin) as [[]|Hl]. split; [exact Hl|].
    destruct Hwf as (_ & _ & Hkl). rewrite Forall_forall in Hkl.
    apply (Hkl (k, v)), list_elem_of_In, Hin.
  - intros a Hin Hproto. apply getOwn_NoDup; [apply Hwf | now apply H4].
Qed.

Lemma constructor_registers_witness :
  ArgProcessor.constructor [Demo.help; Demo.input] = Return (Demo.registry true)
  /\ getOwn "input" (opts (Demo.registry true)) = Some Demo.input.
Proof.
  split; [reflexivity|].
  destruct (constructor_registers [Demo.help; Demo.input] (Demo.registry true)
              eq_refl) as (_ & _ & _ & H).
  apply (H Demo.input); [simpl; auto | discriminate].
Defined.

(** ** Calls in sequence *)

Section Calls.

Lemma resetProps_wellFormed (o : props) : wellFormed o -> wellFormed (resetProps o).
Proof.
  intros (Hk & Hs & Hl). repeat split.
  - now rewrite keys_resetProps.
  - now rewrite shorts_resetProps.
  - unfold resetProps. apply Forall_map. eapply List.Forall_impl; [|exact Hl].
    now intros [k v].
Qed.

Lemma dropOpt_wellFormed (this : t) (k : string) :
  wellFormed (opts this) -> wellFormed (opts (dropOpt this k)).
Proof.
  intros Hwf. unfold dropOpt. destruct (String.eqb k "*"); simpl.
  - repeat split; constructor.
  - now apply deleteOwn_wellFormed.
Qed.

Lemma setOpts_strict (this : t) (k : string) (v : ArgOpt.t) :
  strict (setOpts this k v) = strict this.
Proof.
  unfold setOpts. destruct (getOwn k (opts this)); [reflexivity|].
  now destruct (String.eqb k "__proto__").
Qed.

Lemma dropOpt_strict (this : t) (k : string) :
  strict (dropOpt this k) = strict this.
Proof. unfold dropOpt. now destruct (String.eqb k "*"). Qed.

Lemma pushOpt_strict (this this' : t) (opt : ArgOpt.t) :
  pushOpt this opt = Return this' -> strict this' = strict this.
Proof.
  unfold pushOpt.
  destruct (pushCheck opt (map snd (opts this))) as [[]|e]; [|discriminate].
  simpl. intros [= <-]. now rewrite setOpts_strict, dropOpt_strict.
Qed.

Lemma process_strict (this : t) (args : list string) :
  strict (fst (process this args)) = strict this.
Proof.
  unfold process, processFrom. now destruct (scan _ _ _ _ _ _) as [[o l] e].
Qed.

Lemma perform_keeps (this : t) (c : call) :
  wellFormed (opts this) ->
  wellFormed (opts (perform this c)) /\ strict (perform this c) = strict this.
Proof.
  intros Hwf. destruct c as [opt|optStr desc|k|args|args|]; simpl.
  - destruct (pushOpt this opt) as [this'|e] eqn:Hp; [|now split].
    split; [eapply pushOpt_wellFormed; eauto | eapply pushOpt_strict; eauto].
  - unfold pushOptStr. destruct (ArgOpt.constructor optStr desc) as [o|e];
      simpl; [|now split].
    destruct (pushOpt this o) as [this'|e] eqn:Hp; [|now split].
    split; [eapply pushOpt_wellFormed; eauto | eapply pushOpt_strict; eauto].
  - split; [now apply dropOpt_wellFormed | apply dropOpt_strict].
  - split; [now apply process_wellFormed | apply process_strict].
  - split; [now apply process_wellFormed | apply process_strict].
  - split; [now apply resetProps_wellFormed | reflexivity].
Qed.

End Calls.

(** X8. Whatever calls of [pushOpt], [pushOptStr], [dropOpt], [process],
    [processStr] and [resetOpt] follow, in any order and failing or not,
    the registry of a processor stays well formed (every descriptor under
    its long, no two with the same short) and its mode stays what it
    was. *)
Theorem calls_keep_registry (this : t) (calls : list call) :
  wellFormed (opts this) ->
  wellFormed (opts (fold_left perform calls this))
  /\ strict (fold_left perform calls this) = strict this.
Proof.
  revert this. induction calls as [|c calls IH]; intros this Hwf; simpl;
    [now split|].
  destruct (perform_keeps this c Hwf) as [Hwf' Hs].
  destruct (IH _ Hwf') as [H1 H2]. split; [exact H1 | congruence].
Qed.

Lemma calls_keep_registry_witness :
  wellFormed (opts (Demo.registry true))
  /\ wellFormed
       (opts (fold_left perform
                [PushOptStr "o/output=path" "Where to put?";
                 Process ["app"; "-o"; "out.png"; "--help"];
                 PushOpt Demo.halt; DropOpt "input"; ProcessStr "app -h"]
                (Demo.registry true))).
Proof.
  assert (Hwf : wellFormed (opts (Demo.registry true))).
  { repeat split.
    - simpl. apply (bool_decide_unpack _). vm_compute. exact I.
    - simpl. apply (bool_decide_unpack _). vm_compute. exact I.
    - repeat constructor. }
  split; [exact Hwf|].
  apply (calls_keep_registry (Demo.registry true) _ Hwf).
Defined.

(** ** Declarations before the registry *)

Lemma constructor_rejected (s d : string) :
  accepted (portion s) = false -> throwsSyntaxError (ArgOpt.constructor s d).
Proof.
  intros H. pose proof (parse_spec s) as Hs. rewrite H in Hs.
  destruct Hs as [msg Hs]. unfold ArgOpt.constructor. rewrite Hs.
  eexists. reflexivity.
Qed.

Lemma constructor_result (s d : string) :
  (exists o, ArgOpt.constructor s d = Return o)
  \/ throwsSyntaxError (ArgOpt.constructor s d).
Proof.
  destruct (accepted (portion s)) eqn:E.
  - left. pose proof (parse_spec s) as Hs. rewrite E in Hs.
    unfold ArgOpt.constructor. rewrite Hs. simpl. eauto.
  - right. now apply constructor_rejected.
Qed.

Lemma newStack_rejected (entries : list (string * string)) :
  Exists (fun e => accepted (portion (fst e)) = false) entries ->
  throwsSyntaxError (newStack entries).
Proof.
  induction entries as [|[s d] rest IH]; intros H; [inversion H|].
  simpl. destruct (ArgOpt.constructor s d) as [o|e] eqn:Hc; simpl.
  - inversion H as [? ? Hbad|? ? Hrest]; subst.
    + destruct (constructor_rejected s d Hbad) as [msg Hm]. congruence.
    + destruct (IH Hrest) as [m ->]. eexists. reflexivity.
  - destruct (constructor_result s d) as [[o Ho]|[msg Hm]]; [congruence|].
    rewrite Hm in Hc. injection Hc as <-. eexists. reflexivity.
Qed.

Lemma newStack_accepted (entries : list (string * string)) (stack : list ArgOpt.t) :
  Forall2 (fun e o => ArgOpt.constructor (fst e) (snd e) = Return o) entries stack ->
  newStack entries = Return stack.
Proof.
  induction 1 as [|[s d] o entries stack Ho _ IH]; simpl; [reflexivity|].
  simpl in Ho. now rewrite Ho, IH.
Qed.

(** X9. A declaration is parsed before the registry is looked at:
    [pushOptStr] with a declaration the grammar rejects fails with a
    [SyntaxError] whatever the registry holds, and the static [new] fails
    with a [SyntaxError] as soon as one declaration is rejected, even
    when others collide; otherwise [new] is the constructor on the
    descriptors of its entries, in their order. *)
Theorem declarations_parsed_first :
  (forall (this : t) (s d : string),
      accepted (portion s) = false -> throwsSyntaxError (pushOptStr this s d))
  /\ (forall entries : list (string * string),
         Exists (fun e => accepted (portion (fst e)) = false) entries ->
         throwsSyntaxError (ArgProcessor.new entries))
  /\ (forall (entries : list (string * string)) (stack : list ArgOpt.t),
         Forall2 (fun e o => ArgOpt.constructor (fst e) (snd e) = Return o)
           entries stack ->
         ArgProcessor.new entries = ArgProcessor.constructor stack).
Proof.
  split; [|split].
  - intros this s d H. unfold pushOptStr.
    destruct (constructor_rejected s d H) as [msg ->]. eexists. reflexivity.
  - intros entries H. unfold ArgProcessor.new.
    destruct (newStack_rejected entries H) as [msg ->]. eexists. reflexivity.
  - intros entries stack H. unfold ArgProcessor.new.
    now rewrite (newStack_accepted entries stack H).
Qed.

Lemma declarations_parsed_first_witness :
  accepted (portion "h$/help") = false
  /\ throwsSyntaxError (pushOptStr (Demo.registry true) "h$/help" "")
  /\ throwsSyntaxError
       (ArgProcessor.new [("h/help", ""); ("h/halt", ""); ("1help", "")])
  /\ ArgProcessor.new [("h/help", ""); ("i/input=", "")]
     = ArgProcessor.constructor [Demo.help; Demo.input].
Proof.
  destruct declarations_parsed_first as (H1 & H2 & H3).
  split; [reflexivity|]. split; [|split].
  - apply H1. reflexivity.
  - apply H2. apply Exists_cons_tl, Exists_cons_tl, Exists_cons_hd. reflexivity.
  - apply H3. repeat constructor.
Defined.

(** ** Which failure, on which token *)

Section Which.

Variables (strict : bool) (args : list string).

Lemma processArg_failure (iter : nat) (arg : string) (o o' : props)
    (l l' : locals) (e : Exn) :
  waitingOwn o l ->
  processArg strict args iter arg o l = (o', l', Some e) ->
  (e = mustSupply arg
   /\ exists k a, matchOf o arg = Some (k, a) /\ ArgOpt.capture a = true)
  \/ (strict = true /\ e = unrecognized arg /\ optionShaped arg = true
      /\ matchOf o arg = None).
Proof.
  intros Hw. destruct (captureNext l) eqn:Hp.
  - destruct (Hw Hp) as [v Hv].
    rewrite (processArg_pending _ _ _ _ _ _ _ Hp Hv). discriminate.
  - destruct (matchOf o arg) as [[k a]|] eqn:Hm.
    + rewrite (processArg_matched _ _ _ _ _ _ _ _ Hp Hm). cbv zeta.
      destruct (ArgOpt.capture a) eqn:Hc;
        [destruct (inlineValue arg) as [val|];
           [destruct (JS.truthy val) | destruct (nth_error args (S iter))]|];
        intros [= <- <- <-] || discriminate; left; eauto.
    + rewrite (processArg_unmatched _ _ _ _ _ _ Hp Hm).
      destruct (optionShaped arg) eqn:Hs, strict; simpl; try discriminate.
      intros [= <- <- <-]. right. auto.
Qed.

Lemma scan_failure (iter : nat) (rest : list string) (o o' : props)
    (l l' : locals) (e : Exn) :
  waitingOwn o l ->
  scan strict args iter rest o l = (o', l', Some e) ->
  exists tok, In tok rest
    /\ ((e = mustSupply tok
         /\ exists k a, matchOf o tok = Some (k, a) /\ ArgOpt.capture a = true)
        \/ (strict = true /\ e = unrecognized tok /\ optionShaped tok = true
            /\ matchOf o tok = None)).
Proof.
  revert iter o l. induction rest as [|tok rest IH]; intros iter o l Hw; simpl;
    [discriminate|].
  pose proof (processArg_waiting strict args iter tok o l Hw) as Hnext.
  pose proof (processArg_reset strict args iter tok o l) as Hreset.
  destruct (processArg strict args iter tok o l) as [[o1 l1] [e1|]] eqn:Hstep.
  - intros [= <- <- <-]. exists tok. split; [now left|].
    eapply processArg_failure; eauto.
  - intros Hscan. destruct (IH _ _ _ Hnext Hscan) as (tok' & Hin & Hcase).
    exists tok'. split; [now right|]. simpl in Hreset.
    pose proof (matchOf_reset o1 o tok' Hreset) as Hm.
    destruct Hcase as [[He (k & a & Hk & Hc)]|(Hs & He & Hshape & Hnone)].
    + left. split; [exact He|]. rewrite Hk in Hm.
      destruct (matchOf o tok') as [[k' a']|]; [|contradiction].
      destruct Hm as [_ Hcap]. exists k', a'. split; [reflexivity | congruence].
    + right. rewrite Hnone in Hm.
      destruct (matchOf o tok') as [[k' a']|]; [contradiction | auto].
Qed.

End Which.

(** X10. A pass fails in two ways only, each on a token of its input: with
    "must supply value" on a token that selects a capturing descriptor, or,
    in strict mode only, with "Unrecognized option" on an option-shaped
    token that selects none. It never fails with another error. *)
Theorem process_failures (this : t) (args : list string) (e : Exn) :
  snd (process this args) = Throw e ->
  exists tok, In tok args
    /\ ((e = ReferenceError ("must supply value for " +:+ JS.quoted tok +:+ ".")
         /\ exists k a, matchOf (opts this) tok = Some (k, a)
                        /\ ArgOpt.capture a = true)
        \/ (strict this = true
            /\ e = ReferenceError ("Unrecognized option: " +:+ JS.quoted tok)
            /\ optionShaped tok = true
            /\ matchOf (opts this) tok = None)).
Proof.
  unfold process, processFrom.
  destruct (scan _ _ _ _ _ _) as [[o l] [e'|]] eqn:Hscan; simpl; [|discriminate].
  intros [= <-].
  assert (Hw : waitingOwn (opts (resetOpt this)) initial)
    by (intros Hc; discriminate Hc).
  destruct (scan_failure _ _ _ _ _ _ _ _ _ Hw Hscan) as (tok & Hin & Hcase).
  exists tok. split; [exact Hin|].
  pose proof (matchOf_reset (resetProps (opts this)) (opts this) tok
                (resetProps_idem _)) as Hm.
  destruct Hcase as [[He (k & a & Hk & Hc)]|(Hs & He & Hshape & Hnone)].
  - left. split; [exact He|]. simpl in Hk. rewrite Hk in Hm.
    destruct (matchOf (opts this) tok) as [[k' a']|]; [|contradiction].
    destruct Hm as [_ Hcap]. exists k', a'. split; [reflexivity | congruence].
  - right. simpl in Hnone. rewrite Hnone in Hm.
    destruct (matchOf (opts this) tok) as [[k' a']|]; [contradiction|].
    repeat split; assumption.
Qed.

Lemma process_failures_witness :
  snd (process (Demo.registry true) ["app"; "--nope"; "-i"])
  = Throw (unrecognized "--nope")
  /\ exists tok, In tok ["app"; "--nope"; "-i"]
       /\ (unrecognized "--nope" = mustSupply tok
           \/ unrecognized "--nope" = unrecognized tok).
Proof.
  split; [reflexivity|].
  destruct (process_failures (Demo.registry true) ["app"; "--nope"; "-i"]
              (unrecognized "--nope") eq_refl) as (tok & Hin & Hcase).
  exists tok. split; [exact Hin|].
  destruct Hcase as [[He _]|(_ & He & _)]; [left | right]; exact He.
Defined.

(** ** Lenient passes over a registry without capturing options *)

Lemma scan_lenient_no_capture (args : list string) (iter : nat)
    (rest : list string) (o : props) (l : locals) :
  Forall (fun kv => ArgOpt.capture (snd kv) = false) o ->
  captureNext l = false ->
  exists o' l', scan false args iter rest o l = (o', l', None).
Proof.
  intros Hcap. revert iter o l Hcap.
  induction rest as [|tok rest IH]; intros iter o l Hcap Hl; simpl; [eauto|].
  destruct (matchOf o tok) as [[k a]|] eqn:Hm.
  - rewrite (processArg_matched _ _ _ _ _ _ _ _ Hl Hm). cbv zeta.
    assert (Ha : ArgOpt.capture a = false).
    { unfold matchOf in Hm. destruct (classify tok) as [optKey long].
      destruct (JS.truthy optKey); [|discriminate].
      apply find_In in Hm as [Hin _]. rewrite Forall_forall in Hcap.
      apply (Hcap (k, a)), list_elem_of_In, Hin. }
    rewrite Ha. apply IH; [|exact Hl].
    clear -Hcap. induction o as [|[k' v'] o IHo]; simpl; [constructor|].
    apply Forall_cons in Hcap as [Hv Hrest].
    destruct (String.eqb k' k); constructor; simpl; auto.
  - rewrite (processArg_unmatched _ _ _ _ _ _ Hl Hm).
    rewrite andb_false_r. apply IH; [exact Hcap | exact Hl].
Qed.

(** X11. A lenient processor whose registry has no capturing option never
    fails: every pass returns, and returns the positional tokens. *)
Theorem lenient_flags_never_fail (this : t) (args : list string) :
  strict this = false ->
  Forall (fun kv => ArgOpt.capture (snd kv) = false) (opts this) ->
  snd (process this args) = Return (positionals (opts this) false args).
Proof.
  intros Hs Hcap. unfold process, processFrom. simpl. rewrite Hs.
  destruct (scan_lenient_no_capture args 0 args (resetProps (opts this)) initial)
    as (o' & l' & Hscan); [|reflexivity|].
  - unfold resetProps. apply Forall_map. eapply List.Forall_impl; [|exact Hcap].
    now intros [k v].
  - rewrite Hscan. simpl. rewrite (scan_filtered _ _ _ _ _ _ _ _ Hscan). simpl.
    now rewrite (positionals_reset _ (opts this)) by apply resetProps_idem.
Qed.

Lemma lenient_flags_never_fail_witness :
  Forall (fun kv => ArgOpt.capture (snd kv) = false) [("help", Demo.help)]
  /\ snd (process {| strict := false; opts := [("help", Demo.help)];
                    optsProto := None |}
           ["app"; "--nope"; "-h"; "-x=1"; "-"])
     = Return ["app"; "--nope"; "-x=1"; "-"].
Proof.
  assert (H : Forall (fun kv => ArgOpt.capture (snd kv) = false)
                [("help", Demo.help)]) by (repeat constructor).
  split; [exact H|].
  rewrite (lenient_flags_never_fail
             {| strict := false; opts := [("help", Demo.help)]; optsProto := None |}
             _ eq_refl H).
  reflexivity.
Defined.

(** X12. A pass, returning or failing, writes [proc] and [captured] and
    nothing else: the registry keeps its keys in their order, every
    descriptor its declared fields, and the processor its mode. *)
Theorem process_keeps_declarations (this : t) (args : list string) :
  let this' := fst (process this args) in
  strict this' = strict this
  /\ optsProto this' = optsProto this
  /\ keys (opts this') = keys (opts this)
  /\ Forall2 (fun kv kv' => fst kv' = fst kv /\ declared (snd kv') = declared (snd kv))
       (opts this) (opts this').
Proof.
  intros this'. pose proof (resetOpt_process this args) as Hr. fold this' in Hr.
  assert (E : resetProps (opts this') = resetProps (opts this))
    by (change (opts (resetOpt this') = opts (resetOpt this)); now rewrite Hr).
  split; [apply process_strict|]. split.
  - change (optsProto (resetOpt this') = optsProto (resetOpt this)). now rewrite Hr.
  - split; [now rewrite <- keys_resetProps, E, keys_resetProps|].
    clear Hr. revert E. generalize (opts this') as o'. generalize (opts this) as o.
    induction o as [|[k v] o IH]; intros [|[k' v'] o']; simpl; try discriminate.
    + constructor.
    + intros E. constructor.
      * simpl. unfold declared. split; congruence.
      * apply IH. congruence.
Qed.

(** ** What a pass leaves in [proc] and [captured] *)

Section Outcome.

Lemma selected_reset (o o' : props) (pending : bool) (tokens : list string) :
  resetProps o = resetProps o' ->
  selected o pending tokens = selected o' pending tokens.
Proof.
  intros H. revert pending. induction tokens as [|tok rest IH]; intros pending;
    simpl; [reflexivity|].
  destruct pending; [apply IH|].
  pose proof (matchOf_reset o o' tok H) as Hm.
  destruct (matchOf o tok) as [[k a]|], (matchOf o' tok) as [[k' a']|];
    try contradiction; [|apply IH].
  destruct Hm as [-> ->]. now rewrite IH.
Qed.

Lemma captures_reset (o o' : props) (pending : option string)
    (tokens : list string) :
  resetProps o = resetProps o' ->
  captures o pending tokens = captures o' pending tokens.
Proof.
  intros H. revert pending. induction tokens as [|tok rest IH]; intros pending;
    simpl; [reflexivity|].
  destruct pending; [now rewrite IH|].
  pose proof (matchOf_reset o o' tok H) as Hm.
  destruct (matchOf o tok) as [[k a]|], (matchOf o' tok) as [[k' a']|];
    try contradiction; [|apply IH].
  destruct Hm as [-> ->]. destruct (ArgOpt.capture a'); [|apply IH].
  destruct (inlineValue tok); now rewrite IH.
Qed.

Lemma getOwn_resetProps (k : string) (o : props) :
  getOwn k (resetProps o) = option_map declared (getOwn k o).
Proof.
  induction o as [|[k' v] o IH]; simpl; [reflexivity|].
  destruct (String.eqb k' k); [reflexivity | exact IH].
Qed.

(** The write of one iteration, seen from a key. *)
Lemma getOwn_alterOwn_at (f : ArgOpt.t -> ArgOpt.t) (k0 k : string) (o : props)
    (v : ArgOpt.t) :
  getOwn k o = Some v ->
  getOwn k (alterOwn f k0 o) = Some (if String.eqb k k0 then f v else v).
Proof.
  intros Hv. destruct (String.eqb_spec k k0) as [->|Hne].
  - now rewrite getOwn_alterOwn, Hv.
  - rewrite getOwn_alterOwn_ne by congruence. exact Hv.
Qed.

Lemma scan_outcome (strict : bool) (args : list string) (iter : nat)
    (rest : list string) (o o' : props) (l l' : locals) (k : string)
    (v : ArgOpt.t) :
  waitingOwn o l ->
  scan strict args iter rest o l = (o', l', None) ->
  getOwn k o = Some v ->
  exists v', getOwn k o' = Some v'
    /\ ArgOpt.proc v'
       = ArgOpt.proc v || existsb (String.eqb k) (selected o (captureNext l) rest)
    /\ ArgOpt.captured v'
       = fold_left (supply k) (captures o (waiting l) rest) (ArgOpt.captured v).
Proof.
  revert iter o l v. induction rest as [|tok rest IH]; intros iter o l v Hw.
  - simpl. intros [= <- <-] Hv. exists v. now rewrite orb_false_r.
  - rewrite scan_cons.
    pose proof (processArg_waiting strict args iter tok o l Hw) as Hnext.
    pose proof (processArg_reset strict args iter tok o l) as Hreset.
    destruct (processArg strict args iter tok o l) as [[o1 l1] [e|]] eqn:Hstep;
      [discriminate|].
    simpl in Hreset. intros Hscan Hv.
    assert (IH' : forall v1, getOwn k o1 = Some v1 ->
              exists v', getOwn k o' = Some v'
                /\ ArgOpt.proc v'
                   = ArgOpt.proc v1
                     || existsb (String.eqb k) (selected o (captureNext l1) rest)
                /\ ArgOpt.captured v'
                   = fold_left (supply k) (captures o (waiting l1) rest)
                       (ArgOpt.captured v1)).
    { intros v1 Hv1. destruct (IH _ _ _ _ Hnext Hscan Hv1) as (v' & Hv' & Hp & Hc).
      exists v'. rewrite (selected_reset o o1), (captures_reset o o1)
        by (symmetry; exact Hreset). auto. }
    clear IH Hscan Hnext Hreset. unfold waiting in *.
    destruct (captureNext l) eqn:Hp.
    + destruct (Hw Hp) as [w Hwk].
      rewrite (processArg_pending _ _ _ _ _ _ _ Hp Hwk) in Hstep.
      injection Hstep as <- <-.
      destruct (IH' _ (getOwn_alterOwn_at (setCaptured tok) (lastCapKey l) k o v Hv))
        as (v' & Hv' & Hproc & Hcap).
      exists v'. split; [exact Hv'|]. simpl in *. split.
      * rewrite Hproc. now destruct (String.eqb k (lastCapKey l)).
      * rewrite Hcap. f_equal. unfold supply. simpl.
        rewrite (String.eqb_sym (lastCapKey l) k).
        now destruct (String.eqb k (lastCapKey l)).
    + simpl selected. simpl captures.
      destruct (matchOf o tok) as [[k0 a]|] eqn:Hm.
      * rewrite (processArg_matched _ _ _ _ _ _ _ _ Hp Hm) in Hstep.
        cbv zeta in Hstep.
        pose proof (getOwn_alterOwn_at (setProc true) k0 k o v Hv) as Hv1.
        assert (Hsel : forall b1 b2 : bool,
                   b1 || (String.eqb k k0 || b2)
                   = (if String.eqb k k0 then true else b1) || b2)
          by (intros b1 b2; destruct (String.eqb k k0), b1; reflexivity).
        destruct (ArgOpt.capture a);
          [destruct (inlineValue tok) as [val|];
             [destruct (JS.truthy val) | destruct (nth_error args (S iter))]|];
          try discriminate; injection Hstep as <- <-.
        -- pose proof (getOwn_alterOwn_at (setCaptured val) k0 k _ _ Hv1) as Hv2.
           destruct (IH' _ Hv2) as (v' & Hv' & Hproc & Hcap).
           exists v'. split; [exact Hv'|]. rewrite Hp in *. simpl in *. split.
           ++ rewrite Hproc, Hsel. now destruct (String.eqb k k0).
           ++ rewrite Hcap. f_equal. unfold supply. simpl.
              rewrite (String.eqb_sym k0 k). now destruct (String.eqb k k0).
        -- destruct (IH' _ Hv1) as (v' & Hv' & Hproc & Hcap).
           exists v'. split; [exact Hv'|]. simpl in *. split.
           ++ rewrite Hproc, Hsel. now destruct (String.eqb k k0).
           ++ rewrite Hcap. f_equal. now destruct (String.eqb k k0).
        -- destruct (IH' _ Hv1) as (v' & Hv' & Hproc & Hcap).
           exists v'. split; [exact Hv'|]. rewrite Hp in *. simpl in *. split.
           ++ rewrite Hproc, Hsel. now destruct (String.eqb k k0).
           ++ rewrite Hcap. f_equal. now destruct (String.eqb k k0).
      * rewrite (processArg_unmatched _ _ _ _ _ _ Hp Hm) in Hstep.
        destruct (optionShaped tok && strict); [discriminate|].
        injection Hstep as <- <-.
        destruct (IH' _ Hv) as (v' & Hv' & Hproc & Hcap).
        exists v'. split; [exact Hv'|]. simpl in *. rewrite Hp in *. auto.
Qed.

End Outcome.

Lemma process_outcome (this : t) (args out : list string) (k : string)
    (v : ArgOpt.t) :
  snd (process this args) = Return out ->
  getOwn k (opts this) = Some v ->
  exists v', getOwn k (opts (fst (process this args))) = Some v'
    /\ ArgOpt.proc v' = existsb (String.eqb k) (selected (opts this) false args)
    /\ ArgOpt.captured v' = lastFor k (captures (opts this) None args).
Proof.
  unfold process, processFrom.
  destruct (scan _ _ _ _ _ _) as [[o' l'] [e|]] eqn:Hscan; simpl; [discriminate|].
  intros _ Hv.
  assert (Hw : waitingOwn (opts (resetOpt this)) initial)
    by (intros Hc; discriminate Hc).
  assert (Hv0 : getOwn k (opts (resetOpt this)) = Some (declared v))
    by (simpl; now rewrite getOwn_resetProps, Hv).
  destruct (scan_outcome _ _ _ _ _ _ _ _ _ _ Hw Hscan Hv0) as (v' & Hv' & Hp & Hc).
  exists v'. split; [exact Hv'|]. simpl in Hp, Hc.
  rewrite (selected_reset _ (opts this)) in Hp by apply resetProps_idem.
  rewrite (captures_reset _ (opts this)) in Hc by apply resetProps_idem.
  split; assumption.
Qed.

(** X13. After a pass that returns, [proced] of a registered key is [true]
    exactly when one of the tokens the pass examined selects its
    descriptor; a token taken as the value of the option before it
    selects nothing. *)
Theorem proced_after_process (this : t) (args out : list string) (k : string)
    (v : ArgOpt.t) :
  snd (process this args) = Return out ->
  getOwn k (opts this) = Some v ->
  proced (fst (process this args)) k
  = Return (VBoolean (existsb (String.eqb k) (selected (opts this) false args))).
Proof.
  intros Hout Hv.
  destruct (process_outcome this args out k v Hout Hv) as (v' & Hv' & Hp & _).
  rewrite <- Hp. apply (query_registered _ _ _ Hv').
Qed.

Lemma proced_after_process_witness :
  snd (process (Demo.registry true) ["-i"; "--help"; "x"]) = Return ["x"]
  /\ proced (fst (process (Demo.registry true) ["-i"; "--help"; "x"])) "help"
     = Return (VBoolean false)
  /\ proced (fst (process (Demo.registry true) ["-i"; "--help"; "x"])) "input"
     = Return (VBoolean true).
Proof.
  split; [reflexivity|]. split.
  - exact (proced_after_process (Demo.registry true) ["-i"; "--help"; "x"] ["x"]
             "help" Demo.help eq_refl eq_refl).
  - exact (proced_after_process (Demo.registry true) ["-i"; "--help"; "x"] ["x"]
             "input" Demo.input eq_refl eq_refl).
Defined.

(** X14. After a pass that returns, [value] of a registered key is the
    last value the tokens supply for it, inline or as the token after the
    option, and the empty string when they supply none: an option given
    twice keeps its second value. *)
Theorem value_after_process (this : t) (args out : list string) (k : string)
    (v : ArgOpt.t) :
  snd (process this args) = Return out ->
  getOwn k (opts this) = Some v ->
  value (fst (process this args)) k
  = Return (VString (lastFor k (captures (opts this) None args))).
Proof.
  intros Hout Hv.
  destruct (process_outcome this args out k v Hout Hv) as (v' & Hv' & _ & Hc).
  rewrite <- Hc. apply (query_registered _ _ _ Hv').
Qed.

Lemma value_after_process_witness :
  snd (process (Demo.registry true) ["-i=a"; "--input"; "b"; "-h"]) = Return []
  /\ value (fst (process (Demo.registry true) ["-i=a"; "--input"; "b"; "-h"]))
       "input"
     = Return (VString "b")
  /\ value (fst (process (Demo.registry true) ["-i=a"; "--input"; "b"; "-h"]))
       "help"
     = Return (VString "").
Proof.
  split; [reflexivity|]. split.
  - exact (value_after_process (Demo.registry true)
             ["-i=a"; "--input"; "b"; "-h"] [] "input" Demo.input eq_refl eq_refl).
  - exact (value_after_process (Demo.registry true)
             ["-i=a"; "--input"; "b"; "-h"] [] "help" Demo.help eq_refl eq_refl).
Defined.

(** ** The four spellings of an option *)

Section Spellings.

Lemma substringFrom_2 (a b : ascii) (s : string) :
  JS.substringFrom (String a (String b s)) 2 = s.
Proof.
  unfold JS.substringFrom, JS.substring, JS.clamp. rewrite !strlen_String.
  pose proof (strlen_nonneg s) as Hn. set (n := JS.strlen s) in *.
  replace (Z.max 0 (Z.min 2 (n + 1 + 1))) with 2 by lia.
  replace (Z.max 0 (Z.min (n + 1 + 1) (n + 1 + 1))) with (n + 2) by lia.
  rewrite Z.min_l, Z.max_r by lia.
  replace (n + 2 - 2) with n by lia. subst n. unfold JS.strlen.
  rewrite Nat2Z.id. simpl. apply take_all.
Qed.

Lemma startsWith_dashes (c : ascii) (r : string) :
  JS.isWord c = true -> JS.startsWith "--" (String "-" (String c r)) = false.
Proof.
  intros Hc. cbn [JS.startsWith]. rewrite Ascii.eqb_refl.
  destruct (Ascii.eqb_spec "-" c) as [<-|_]; [discriminate | reflexivity].
Qed.

Lemma classify_long (s : string) : classify ("--" +:+ s) = (s, true).
Proof.
  rewrite !append_cons, append_nil_l. unfold classify. cbn [JS.startsWith].
  rewrite Ascii.eqb_refl. cbn [andb]. now rewrite substringFrom_2.
Qed.

Lemma classify_short (s w : string) :
  allb JS.isWord s = true -> JS.truthy s = true ->
  classify ("-" +:+ s +:+ w) = (s +:+ w, false).
Proof.
  intros Hs Ht. rewrite append_cons, append_nil_l. unfold classify.
  destruct s as [|c r]; [discriminate|]. simpl in Hs.
  apply andb_prop in Hs as [Hc _]. rewrite append_cons.
  rewrite (startsWith_dashes c _ Hc). cbn [JS.startsWith].
  rewrite Ascii.eqb_refl. cbn [andb]. now rewrite substringFrom_1.
Qed.

Lemma lookupKey_plain (s : string) : occurs "=" s = false -> lookupKey s = s.
Proof.
  intros H. unfold lookupKey. now rewrite (substring_search_none _ _ H).
Qed.

Lemma lookupKey_inline (s v : string) :
  occurs "=" s = false -> JS.truthy s = true ->
  lookupKey (s +:+ "=" +:+ v) = s.
Proof.
  intros H Ht. unfold lookupKey.
  assert (Ho : occurs "=" (s +:+ "=" +:+ v) = true)
    by (rewrite occurs_app, append_cons; simpl; apply orb_true_r).
  rewrite (substring_search _ _ Ho), (before_app _ _ _ H), append_cons.
  simpl. rewrite append_nil_r. unfold JS.or. now rewrite Ht.
Qed.

Lemma truthy_app (s t : string) : JS.truthy s = true -> JS.truthy (s +:+ t) = true.
Proof. now destruct s. Qed.

Lemma inline_after (s v : string) :
  occurs "=" s = false ->
  occurs "=" (s +:+ "=" +:+ v) = true /\ after "=" (s +:+ "=" +:+ v) = v.
Proof.
  intros H. split.
  - rewrite occurs_app, append_cons. simpl. apply orb_true_r.
  - rewrite (after_app _ _ _ H), append_cons. reflexivity.
Qed.

(** With distinct keys, each the long of its descriptor, a long form
    selects the one descriptor that has it. *)
Lemma find_long (k : string) (a : ArgOpt.t) (o : props) :
  NoDup (keys o) -> Forall (fun kv => fst kv = ArgOpt.long (snd kv)) o ->
  In (k, a) o -> find (hits true (ArgOpt.long a)) o = Some (k, a).
Proof.
  induction o as [|[k' a'] o IH]; simpl; [contradiction|].
  intros [Hnot Hnd]%NoDup_cons [Hk' Hl]%Forall_cons [H|H].
  - injection H as -> ->. unfold hits. simpl. now rewrite String.eqb_refl.
  - unfold hits at 1. simpl. rewrite orb_false_r.
    destruct (String.eqb_spec (ArgOpt.long a) (ArgOpt.long a')) as [E|_]; [|auto].
    exfalso. apply Hnot. simpl in Hk'. rewrite Hk', <- E. apply list_elem_of_In.
    rewrite Forall_forall in Hl.
    pose proof (Hl (k, a) (proj2 (list_elem_of_In _ _) H)) as Hk. simpl in Hk.
    rewrite <- Hk. change k with (fst (k, a)). now apply in_map.
Qed.

End Spellings.

(** X15. In a well-formed registry, a descriptor whose long is a
    non-empty word is selected by [--long] and by [--long=v], the second
    with the inline value [v], whatever [v] is; if its short is a
    non-empty word, so do [-short] and [-short=v]. *)
Theorem option_spellings (o : props) (k : string) (a : ArgOpt.t) (v : string) :
  wellFormed o -> In (k, a) o ->
  allb JS.isWord (ArgOpt.long a) = true -> JS.truthy (ArgOpt.long a) = true ->
  (matchOf o ("--" +:+ ArgOpt.long a) = Some (k, a)
   /\ inlineValue ("--" +:+ ArgOpt.long a) = None
   /\ matchOf o ("--" +:+ ArgOpt.long a +:+ "=" +:+ v) = Some (k, a)
   /\ inlineValue ("--" +:+ ArgOpt.long a +:+ "=" +:+ v) = Some v)
  /\ (allb JS.isWord (ArgOpt.short a) = true ->
      JS.truthy (ArgOpt.short a) = true ->
      matchOf o ("-" +:+ ArgOpt.short a) = Some (k, a)
      /\ inlineValue ("-" +:+ ArgOpt.short a) = None
      /\ matchOf o ("-" +:+ ArgOpt.short a +:+ "=" +:+ v) = Some (k, a)
      /\ inlineValue ("-" +:+ ArgOpt.short a +:+ "=" +:+ v) = Some v).
Proof.
  intros (Hkeys & Hshorts & Hlongs) Hin Hlw Hlt.
  assert (Hle : occurs "=" (ArgOpt.long a) = false)
    by (apply (allb_occurs JS.isWord); [reflexivity | assumption]).
  pose proof (find_long k a o Hkeys Hlongs Hin) as Hfl.
  pose proof (find_short k a o Hshorts Hin) as Hfs.
  split.
  - destruct (inline_after (ArgOpt.long a) v Hle) as [Ho Ha].
    unfold matchOf, inlineValue. rewrite !classify_long. simpl fst.
    rewrite Hlt, (truthy_app _ _ Hlt), (lookupKey_plain _ Hle),
      (lookupKey_inline _ v Hle Hlt), Hle, Ho, Ha.
    repeat split; assumption.
  - intros Hsw Hst.
    assert (Hse : occurs "=" (ArgOpt.short a) = false)
      by (apply (allb_occurs JS.isWord); [reflexivity | assumption]).
    pose proof (classify_short _ ("=" +:+ v) Hsw Hst) as Hcl.
    pose proof (classify_short _ EmptyString Hsw Hst) as Hcs.
    rewrite append_nil_r in Hcs.
    destruct (inline_after (ArgOpt.short a) v Hse) as [Ho Ha].
    unfold matchOf, inlineValue. rewrite Hcs, Hcl. simpl fst.
    rewrite Hst, (truthy_app _ _ Hst), (lookupKey_plain _ Hse),
      (lookupKey_inline _ v Hse Hst), Hse, Ho, Ha.
    repeat split; assumption.
Qed.

Lemma option_spellings_witness :
  wellFormed (opts (Demo.registry true))
  /\ matchOf (opts (Demo.registry true)) "--input=--help"
     = Some ("input", Demo.input)
  /\ inlineValue "--input=--help" = Some "--help"
  /\ matchOf (opts (Demo.registry true)) "-i" = Some ("input", Demo.input).
Proof.
  assert (Hwf : wellFormed (opts (Demo.registry true))).
  { repeat split.
    - simpl. apply (bool_decide_unpack _). vm_compute. exact I.
    - simpl. apply (bool_decide_unpack _). vm_compute. exact I.
    - repeat constructor. }
  split; [exact Hwf|].
  destruct (option_spellings (opts (Demo.registry true)) "input" Demo.input
              "--help" Hwf (or_intror (or_introl eq_refl)) eq_refl eq_refl)
    as ((_ & _ & H1 & H2) & Hshort).
  split; [exact H1|]. split; [exact H2|].
  exact (proj1 (Hshort eq_refl eq_refl)).
Defined.

(** ** The tokens of [processStr] *)

Section Tokens.

Lemma split_none (c : ascii) (s : string) :
  occurs c s = false -> JS.split c s = [s].
Proof.
  induction s as [|a s IH]; simpl; [reflexivity|].
  destruct (Ascii.eqb a c); simpl; [discriminate|]. intros H. now rewrite IH.
Qed.

Lemma split_app (c : ascii) (a b : string) :
  occurs c a = false -> JS.split c (a +:+ String c b) = a :: JS.split c b.
Proof.
  induction a as [|x a IH]; intros H.
  - rewrite append_nil_l. simpl. now rewrite Ascii.eqb_refl.
  - rewrite append_cons. simpl in *.
    destruct (Ascii.eqb x c); simpl in *; [discriminate|]. now rewrite IH.
Qed.

Lemma split_pieces (c : ascii) (s : string) :
  Forall (fun t => occurs c t = false) (JS.split c s).
Proof.
  induction s as [|a s IH]; simpl; [repeat constructor|].
  destruct (Ascii.eqb a c) eqn:E; [constructor; [reflexivity | exact IH]|].
  destruct (JS.split c s) as [|piece pieces]; [repeat constructor; simpl; now rewrite E|].
  apply Forall_cons in IH as [Hp Hps]. constructor; [|exact Hps].
  simpl. now rewrite E.
Qed.

Lemma tokens_join (toks : list string) :
  Forall (fun t => word t = true) toks ->
  filter (fun arg => JS.truthy arg = true) (JS.split " " (String.concat " " toks))
  = toks.
Proof.
  induction toks as [|t ts IH]; intros H; [reflexivity|].
  apply Forall_cons in H as [Ht Hts]. unfold word in Ht.
  apply andb_prop in Ht as [Hne Hsp]. apply negb_true_iff in Hsp.
  destruct ts as [|t' ts].
  - simpl. rewrite (split_none _ _ Hsp). now rewrite filter_cons_True.
  - change (String.concat " " (t :: t' :: ts))
      with (t +:+ String " " (String.concat " " (t' :: ts))).
    rewrite (split_app _ _ _ Hsp), filter_cons_True by exact Hne.
    now rewrite (IH Hts).
Qed.

End Tokens.

(** X16. [processStr] hands [process] the pieces of its string between
    spaces, without the empty ones: none of them is empty or holds a
    space, so no value with a space can be passed this way; and a string
    of non-empty space-free tokens joined by single spaces is processed
    like the list of those tokens. *)
Theorem processStr_tokens :
  (forall (this : t) (s : string),
      exists toks, processStr this s = process this toks
                   /\ Forall (fun t => word t = true) toks)
  /\ (forall (this : t) (toks : list string),
         Forall (fun t => word t = true) toks ->
         processStr this (String.concat " " toks) = process this toks).
Proof.
  split.
  - intros this s. eexists. split; [reflexivity|].
    pose proof (split_pieces " " s) as Hp.
    induction (JS.split " " s) as [|p ps IH]; [constructor|].
    apply Forall_cons in Hp as [Hp Hps].
    destruct (JS.truthy p) eqn:Et.
    + rewrite filter_cons_True by exact Et. constructor; [|auto].
      unfold word. now rewrite Et, Hp.
    + rewrite filter_cons_False by (rewrite Et; discriminate). auto.
  - intros this toks H. unfold processStr. now rewrite tokens_join.
Qed.

Lemma processStr_tokens_witness :
  Forall (fun t => word t = true) ["app"; "-i"; "img.png"]
  /\ processStr (Demo.registry true) "app -i img.png"
     = process (Demo.registry true) ["app"; "-i"; "img.png"].
Proof.
  assert (H : Forall (fun t => word t = true) ["app"; "-i"; "img.png"])
    by (repeat constructor).
  split; [exact H|].
  exact (proj2 processStr_tokens (Demo.registry true) ["app"; "-i"; "img.png"] H).
Defined.

(** ** The help text *)

Lemma helpString_declared (o : ArgOpt.t) :
  ArgOpt.helpString (declared o) = ArgOpt.helpString o.
Proof. reflexivity. Qed.

Lemma helpString_fold (o : props) (acc : string) :
  fold_left (fun helpStr kv => helpStr +:+ ArgOpt.helpString (snd kv))
    (resetProps o) acc
  = fold_left (fun helpStr kv => helpStr +:+ ArgOpt.helpString (snd kv)) o acc.
Proof.
  revert acc. induction o as [|[k v] o IH]; intros acc; simpl; [reflexivity|].
  apply IH.
Qed.

(** X17. The help text of a processor does not depend on the passes made:
    after any call of [process], returning or failing, and after
    [resetOpt], [helpString] gives what it gave before. *)
Theorem helpString_after_process (this : t) (args : list string) :
  ArgProcessor.helpString (fst (process this args)) = ArgProcessor.helpString this
  /\ ArgProcessor.helpString (resetOpt this) = ArgProcessor.helpString this.
Proof.
  assert (Hreset : forall this0,
             ArgProcessor.helpString (resetOpt this0) = ArgProcessor.helpString this0)
    by (intros this0; apply helpString_fold).
  split; [|apply Hreset].
  rewrite <- (Hreset (fst (process this args))), <- (Hreset this).
  now rewrite resetOpt_process.
Qed.

(** ** The order of the help text *)

Section HelpOrder.

Lemma helpString_acc (o : props) (acc : string) :
  fold_left (fun helpStr kv => helpStr +:+ ArgOpt.helpString (snd kv)) o acc
  = acc +:+ fold_left (fun helpStr kv => helpStr +:+ ArgOpt.helpString (snd kv))
              o EmptyString.
Proof.
  revert acc. induction o as [|[k v] o IH]; intros acc; simpl.
  - now rewrite append_nil_r.
  - rewrite IH, (IH (_ +:+ _)), append_nil_l. now rewrite append_assoc.
Qed.

Lemma helpString_last (this : t) (k : string) (v : ArgOpt.t) :
  ArgProcessor.helpString (withOpts this (opts this ++ [(k, v)]))
  = ArgProcessor.helpString this +:+ ArgOpt.helpString v.
Proof. unfold ArgProcessor.helpString. simpl. now rewrite fold_left_app. Qed.

Lemma insertIndex_first (n : N) (k : string) (v : ArgOpt.t) (o : props) :
  Forall (fun kv => arrayIndex (fst kv) = None) o ->
  insertIndex n k v o = (k, v) :: o.
Proof.
  destruct o as [|[k' v'] o]; [reflexivity|].
  intros [Hk _]%Forall_cons. simpl in *. now rewrite Hk.
Qed.

Lemma helpString_first (this : t) (k : string) (v : ArgOpt.t) :
  ArgProcessor.helpString (withOpts this ((k, v) :: opts this))
  = ArgOpt.helpString v +:+ ArgProcessor.helpString this.
Proof.
  unfold ArgProcessor.helpString. simpl. now rewrite helpString_acc, append_nil_l.
Qed.

Lemma dropOpt_own (this : t) (k : string) :
  NoDup (keys (opts this)) -> getOwn k (opts (dropOpt this k)) = None.
Proof.
  intros Hnd. unfold dropOpt.
  destruct (String.eqb k "*"); simpl; [reflexivity | now apply getOwn_deleteOwn].
Qed.

Lemma dropOpt_sublist (this : t) (k : string) :
  sublist (opts (dropOpt this k)) (opts this).
Proof.
  unfold dropOpt. destruct (String.eqb k "*"); simpl;
    [apply sublist_nil_l | apply deleteOwn_sublist].
Qed.

End HelpOrder.

(** X18. The help text follows the order of [Object.values]: a [pushOpt]
    that returns moves the paragraph of the descriptor to the end of the
    help text, dropping the one its long had; but when the long is an
    array index such as [2] and no registered long is one, the paragraph
    comes first. *)
Theorem helpString_order (this this' : t) (opt : ArgOpt.t) :
  NoDup (keys (opts this)) ->
  ArgOpt.long opt <> "__proto__" ->
  pushOpt this opt = Return this' ->
  (arrayIndex (ArgOpt.long opt) = None ->
   ArgProcessor.helpString this'
   = ArgProcessor.helpString (dropOpt this (ArgOpt.long opt))
     +:+ ArgOpt.helpString opt)
  /\ (arrayIndex (ArgOpt.long opt) <> None ->
      Forall (fun kv => arrayIndex (fst kv) = None) (opts this) ->
      ArgProcessor.helpString this'
      = ArgOpt.helpString opt
        +:+ ArgProcessor.helpString (dropOpt this (ArgOpt.long opt))).
Proof.
  intros Hnd Hproto Hpush. unfold pushOpt in Hpush.
  destruct (pushCheck opt (map snd (opts this))); [|discriminate].
  simpl in Hpush. injection Hpush as <-.
  unfold setOpts. rewrite (dropOpt_own this _ Hnd).
  destruct (String.eqb_spec (ArgOpt.long opt) "__proto__") as [E|_];
    [contradiction|].
  unfold defineOwn. split.
  - intros ->. apply helpString_last.
  - intros Hidx Hall. destruct (arrayIndex (ArgOpt.long opt)) as [n|];
      [|contradiction].
    rewrite insertIndex_first; [apply helpString_first|].
    apply Forall_forall. intros kv Hkv. rewrite Forall_forall in Hall.
    apply Hall. exact (elem_of_sublist _ _ _ Hkv (dropOpt_sublist this _)).
Qed.

Lemma helpString_order_witness :
  ArgOpt.constructor "2/2" "" = Return Demo.two
  /\ exists this',
       pushOpt (Demo.registry true) Demo.two = Return this'
       /\ keys (opts this') = ["2"; "help"; "input"]
       /\ ArgProcessor.helpString this'
          = ArgOpt.helpString Demo.two
            +:+ ArgProcessor.helpString (Demo.registry true).
Proof.
  split; [reflexivity|].
  eexists. split; [reflexivity|]. split; [reflexivity|].
  assert (Hnd : NoDup (keys (opts (Demo.registry true))))
    by (simpl; apply (bool_decide_unpack _); vm_compute; exact I).
  assert (Hne : ArgOpt.long Demo.two <> "__proto__") by discriminate.
  assert (Hidx : arrayIndex (ArgOpt.long Demo.two) <> None) by discriminate.
  assert (Hall : Forall (fun kv => arrayIndex (fst kv) = None)
                   (opts (Demo.registry true))) by (repeat constructor).
  exact (proj2 (helpString_order (Demo.registry true) _ Demo.two Hnd Hne eq_refl)
           Hidx Hall).
Defined.
